(** * Response sanitising and parsing of the Gemini slide-analysis service

    A shallow embedding of [sanitizeJsonString] and [analyzeSlideImage]
    (the variant that sanitises the model's answer, and the plain variant of
    [src/services/geminiService.ts]) together with the pieces of the
    JavaScript runtime they call: [String.prototype.replace] with a regular
    expression, [trim], [indexOf], [lastIndexOf], [substring] and
    [JSON.parse]. *)

From Stdlib Require Import String Ascii List NArith ZArith Bool Lia.
Import ListNotations.

Set Implicit Arguments.
Set Warnings "-register-all".

(** ** JavaScript strings

    A JavaScript string is a sequence of UTF-16 code units.  None of the
    regular expressions of the service carries the [u] flag, so every
    operation below works on code units. *)

Definition char := N.
Definition jsstring := list char.

(** A string literal of the source, written with Rocq's 8-bit strings. *)
Definition lit (s : string) : jsstring :=
  map N_of_ascii (list_ascii_of_string s).

(** The same, with every apostrophe standing for a double quote, so that
    JSON texts remain readable. *)
Definition jq (s : string) : jsstring :=
  map (fun c => if (c =? 39)%N then 34%N else c) (lit s).

Definition backslash : char := 92%N.
Definition letter_u : char := 117%N.
Definition lbrace : char := 123%N.
Definition rbrace : char := 125%N.
Definition dquote : char := 34%N.

Definition in_range (lo hi c : char) : bool := ((lo <=? c) && (c <=? hi))%N.

(** [\s] of a regular expression, which is also what [trim] strips: the
    WhiteSpace and LineTerminator code points of ECMAScript. *)
Definition is_white_space (c : char) : bool :=
  ((c =? 0x9) || (c =? 0xA) || (c =? 0xB) || (c =? 0xC) || (c =? 0xD)
   || (c =? 0x20) || (c =? 0xA0) || (c =? 0x1680)
   || in_range 0x2000 0x200A c
   || (c =? 0x2028) || (c =? 0x2029) || (c =? 0x202F) || (c =? 0x205F)
   || (c =? 0x3000) || (c =? 0xFEFF))%N.

(** The class [[0-9a-fA-F]]. *)
Definition is_hex_digit (c : char) : bool :=
  (in_range 48 57 c || in_range 97 102 c || in_range 65 70 c)%N.

(** The class [[\x00-\x08\x0B\x0C\x0E-\x1F\x7F-\x9F]]. *)
Definition is_control (c : char) : bool :=
  (in_range 0x00 0x08 c || (c =? 0x0B) || (c =? 0x0C)
   || in_range 0x0E 0x1F c || in_range 0x7F 0x9F c)%N.

(** ** Regular expressions

    The fragment of ECMAScript patterns that the service uses, with the
    backtracking semantics of the language: a matcher takes the position
    and the rest of the input and a continuation, and answers with the
    input left after the whole match. *)

Inductive regex : Type :=
| Chr (c : char)                 (* a literal character *)
| Class (p : char -> bool)       (* a character class, [\s] included *)
| Cat (r1 r2 : regex)            (* r1 r2 *)
| Opt (r : regex)                (* r? , greedy *)
| Star (p : char -> bool)        (* class* , greedy *)
| Times (n : nat) (r : regex)    (* r{n} *)
| Bos                            (* ^ without the m flag *)
| Eos                            (* $ without the m flag *)
| NotAhead (r : regex).          (* (?!r) *)

Definition cont := nat -> jsstring -> option jsstring.

Definition accept : cont := fun _ rest => Some rest.

Fixpoint star (p : char -> bool) (i : nat) (s : jsstring) (k : cont)
  : option jsstring :=
  match s with
  | c :: s' =>
      if p c then
        match star p (S i) s' k with
        | Some rest => Some rest
        | None => k i s
        end
      else k i s
  | [] => k i s
  end.

Fixpoint run (r : regex) (i : nat) (s : jsstring) (k : cont)
  : option jsstring :=
  match r with
  | Chr c =>
      match s with
      | x :: s' => if (x =? c)%N then k (S i) s' else None
      | [] => None
      end
  | Class p =>
      match s with
      | x :: s' => if p x then k (S i) s' else None
      | [] => None
      end
  | Cat r1 r2 => run r1 i s (fun j t => run r2 j t k)
  | Opt r1 =>
      match run r1 i s k with
      | Some rest => Some rest
      | None => k i s
      end
  | Star p => star p i s k
  | Times n r1 =>
      (fix times (n : nat) (i : nat) (s : jsstring) (k : cont) :=
         match n with
         | O => k i s
         | S n' => run r1 i s (fun j t => times n' j t k)
         end) n i s k
  | Bos => if Nat.eqb i 0 then k i s else None
  | Eos => match s with [] => k i s | _ :: _ => None end
  | NotAhead r1 =>
      match run r1 i s accept with
      | Some _ => None
      | None => k i s
      end
  end.

(** A literal word followed by [r]. *)
Fixpoint word (w : jsstring) (r : regex) : regex :=
  match w with
  | [] => r
  | c :: w' => Cat (Chr c) (word w' r)
  end.

(** One attempt at position [i], where [s] is the input from [i] on. *)
Definition exec_at (r : regex) (i : nat) (s : jsstring) : option jsstring :=
  run r i s accept.

(** The leftmost match at or after position [i]: its start and the input
    left after it. *)
Fixpoint search (r : regex) (i : nat) (s : jsstring)
  : option (nat * jsstring) :=
  match exec_at r i s with
  | Some rest => Some (i, rest)
  | None =>
      match s with
      | [] => None
      | _ :: s' => search r (S i) s'
      end
  end.

(** [str.replace(r, by)] for a pattern without the [g] flag: the leftmost
    match only.  The replacement strings of the service hold no [$]. *)
Definition replace (r : regex) (by_ : jsstring) (str : jsstring) : jsstring :=
  match search r 0 str with
  | Some (i, rest) => firstn i str ++ by_ ++ rest
  | None => str
  end.

(** [str.replace(r, by)] for a pattern with the [g] flag.  [skip] counts the
    characters of the current match still to be passed over; after an empty
    match the scan moves on by one character. *)
Fixpoint replace_from (r : regex) (by_ : jsstring) (i skip : nat)
  (s : jsstring) {struct s} : jsstring :=
  match skip with
  | S k =>
      match s with
      | [] => []
      | _ :: s' => replace_from r by_ (S i) k s'
      end
  | O =>
      match exec_at r i s with
      | None =>
          match s with
          | [] => []
          | c :: s' => c :: replace_from r by_ (S i) 0 s'
          end
      | Some rest =>
          by_ ++
          match length s - length rest with
          | O =>
              match s with
              | [] => []
              | c :: s' => c :: replace_from r by_ (S i) 0 s'
              end
          | S k =>
              match s with
              | [] => []
              | _ :: s' => replace_from r by_ (S i) k s'
              end
          end
      end
  end.

Definition replaceAll (r : regex) (by_ : jsstring) (str : jsstring)
  : jsstring :=
  replace_from r by_ 0 0 str.

(** ** String built-ins *)

Fixpoint drop_while (p : char -> bool) (s : jsstring) : jsstring :=
  match s with
  | c :: s' => if p c then drop_while p s' else s
  | [] => []
  end.

Definition trim (s : jsstring) : jsstring :=
  rev (drop_while is_white_space (rev (drop_while is_white_space s))).

Open Scope Z_scope.

(** [s.indexOf(c)] for a one-character search string; -1 when absent. *)
Fixpoint indexOf (c : char) (s : jsstring) : Z :=
  match s with
  | [] => -1
  | x :: s' =>
      if (x =? c)%N then 0
      else let r := indexOf c s' in if r =? -1 then -1 else r + 1
  end.

(** [s.lastIndexOf(c)] for a one-character search string. *)
Fixpoint lastIndexOf (c : char) (s : jsstring) : Z :=
  match s with
  | [] => -1
  | x :: s' =>
      let r := lastIndexOf c s' in
      if r =? -1 then (if (x =? c)%N then 0 else -1) else r + 1
  end.

(** [s.substring(a, b)]: both indices are clamped to [0, length] and
    swapped when the first exceeds the second. *)
Definition clamp (len x : Z) : Z := Z.min (Z.max x 0) len.

Definition substring (s : jsstring) (a b : Z) : jsstring :=
  let len := Z.of_nat (length s) in
  let a' := clamp len a in
  let b' := clamp len b in
  let from := Z.min a' b' in
  let to := Z.max a' b' in
  firstn (Z.to_nat (to - from)) (skipn (Z.to_nat from) s).

(** ** [sanitizeJsonString] *)

(** [/```json\s?/] *)
Definition re_fence_open : regex :=
  word (lit "```json") (Opt (Class is_white_space)).

(** [/```\s?$/] *)
Definition re_fence_close : regex :=
  word (lit "```") (Cat (Opt (Class is_white_space)) Eos).

(** [/\\u(?![0-9a-fA-F]{4})/g] *)
Definition re_bad_unicode : regex :=
  word [backslash; letter_u] (NotAhead (Times 4 (Class is_hex_digit))).

(** [/[\x00-\x08\x0B\x0C\x0E-\x1F\x7F-\x9F]/g] *)
Definition re_control : regex := Class is_control.

(** Remove markdown code blocks if present. *)
Definition stripFences (str : jsstring) : jsstring :=
  replace re_fence_close [] (replace re_fence_open [] str).

(** Find the actual JSON object bounds. *)
Definition jsonBounds (cleaned : jsstring) : jsstring :=
  let firstBrace := indexOf lbrace cleaned in
  let lastBrace := lastIndexOf rbrace cleaned in
  if negb (firstBrace =? -1) && negb (lastBrace =? -1)
  then substring cleaned firstBrace (lastBrace + 1)
  else cleaned.

(** Sanitize bad unicode escapes. *)
Definition fixUnicodeEscapes (cleaned : jsstring) : jsstring :=
  replaceAll re_bad_unicode [letter_u] cleaned.

(** Remove problematic control characters. *)
Definition stripControl (cleaned : jsstring) : jsstring :=
  replaceAll re_control [] cleaned.

Definition sanitizeJsonString (str : jsstring) : jsstring :=
  let cleaned := trim (stripFences str) in
  let cleaned := jsonBounds cleaned in
  let cleaned := fixUnicodeEscapes cleaned in
  let cleaned := stripControl cleaned in
  cleaned.

Close Scope Z_scope.

(** ** JSON values and [JSON.parse]

    A number keeps its source text (JavaScript reads it as the nearest
    double); an object keeps its members in source order, and a property
    read takes the last member of that name, as [JSON.parse] lets a later
    duplicate overwrite an earlier one. *)

Inductive json : Type :=
| JNull
| JBool (b : bool)
| JNumber (lexeme : jsstring)
| JString (s : jsstring)
| JArray (items : list json)
| JObject (members : list (jsstring * json)).

Fixpoint eqb_string (a b : jsstring) : bool :=
  match a, b with
  | [], [] => true
  | x :: a', y :: b' => (x =? y)%N && eqb_string a' b'
  | _, _ => false
  end.

Fixpoint last_member (key : jsstring) (ms : list (jsstring * json))
  : option json :=
  match ms with
  | [] => None
  | (k, v) :: ms' =>
      match last_member key ms' with
      | Some x => Some x
      | None => if eqb_string k key then Some v else None
      end
  end.

(** [v[key]] for a name that is no built-in property; [None] is
    [undefined]. *)
Definition get (key : jsstring) (v : json) : option json :=
  match v with
  | JObject ms => last_member key ms
  | _ => None
  end.

Inductive parsed (A : Type) : Type :=
| Parsed (a : A) (rest : jsstring)
| Invalid
| Exhausted.

Arguments Invalid {A}.
Arguments Exhausted {A}.

Definition is_json_space (c : char) : bool :=
  ((c =? 0x9) || (c =? 0xA) || (c =? 0xD) || (c =? 0x20))%N.

Definition skip_ws (s : jsstring) : jsstring := drop_while is_json_space s.

Definition is_digit (c : char) : bool := in_range 48%N 57%N c.

Definition hex_value (c : char) : option N :=
  (if in_range 48 57 c then Some (c - 48)
   else if in_range 97 102 c then Some (c - 87)
   else if in_range 65 70 c then Some (c - 55)
   else None)%N.

(** The character a two-character escape stands for. *)
Definition unescape (e : char) : option char :=
  (if e =? 34 then Some 34        (* quotation mark *)
   else if e =? 92 then Some 92   (* reverse solidus *)
   else if e =? 47 then Some 47   (* solidus *)
   else if e =? 98 then Some 8    (* b: backspace *)
   else if e =? 102 then Some 12  (* f: form feed *)
   else if e =? 110 then Some 10  (* n: line feed *)
   else if e =? 114 then Some 13  (* r: carriage return *)
   else if e =? 116 then Some 9   (* t: tab *)
   else None)%N.

(** The characters of a string literal after its opening quote, up to and
    including the closing quote. *)
Fixpoint parse_chars (s : jsstring) : option (jsstring * jsstring) :=
  match s with
  | [] => None
  | c :: s1 =>
      if (c =? dquote)%N then Some ([], s1)
      else if (c =? backslash)%N then
        match s1 with
        | [] => None
        | e :: s2 =>
            if (e =? letter_u)%N then
              match s2 with
              | h1 :: h2 :: h3 :: h4 :: s3 =>
                  match hex_value h1, hex_value h2, hex_value h3, hex_value h4
                  with
                  | Some a, Some b, Some c, Some d =>
                      match parse_chars s3 with
                      | Some (str, rest) =>
                          Some ((a * 4096 + b * 256 + c * 16 + d)%N :: str, rest)
                      | None => None
                      end
                  | _, _, _, _ => None
                  end
              | _ => None
              end
            else
              match unescape e with
              | Some x =>
                  match parse_chars s2 with
                  | Some (str, rest) => Some (x :: str, rest)
                  | None => None
                  end
              | None => None
              end
        end
      else if (c <? 32)%N then None
      else
        match parse_chars s1 with
        | Some (str, rest) => Some (c :: str, rest)
        | None => None
        end
  end.

Fixpoint span (p : char -> bool) (s : jsstring) : jsstring * jsstring :=
  match s with
  | c :: s' =>
      if p c then let (a, b) := span p s' in (c :: a, b) else ([], s)
  | [] => ([], [])
  end.

(** One or more digits. *)
Definition digits1 (s : jsstring) : option (jsstring * jsstring) :=
  match span is_digit s with
  | ([], _) => None
  | (ds, rest) => Some (ds, rest)
  end.

(** A number: an optional minus sign; then 0, or a digit from 1 to 9 and
    any digits; then optionally a point and one or more digits; then
    optionally e or E, an optional sign and one or more digits. *)
Definition parse_number (s : jsstring) : option (jsstring * jsstring) :=
  let (sign, s1) :=
    match s with
    | c :: t => if (c =? 45)%N then ([c], t) else ([], s)
    | [] => ([], s)
    end in
  let int_part :=
    match s1 with
    | d :: t =>
        if (d =? 48)%N then Some ([d], t)
        else if in_range 49%N 57%N d
             then let (ds, r) := span is_digit t in Some (d :: ds, r)
             else None
    | [] => None
    end in
  match int_part with
  | None => None
  | Some (int, s2) =>
      let frac_part :=
        match s2 with
        | c :: t =>
            if (c =? 46)%N then
              match digits1 t with
              | Some (ds, r) => Some (c :: ds, r)
              | None => None
              end
            else Some ([], s2)
        | [] => Some ([], s2)
        end in
      match frac_part with
      | None => None
      | Some (frac, s3) =>
          let exp_part :=
            match s3 with
            | c :: t =>
                if ((c =? 101) || (c =? 69))%N then
                  let (esign, t') :=
                    match t with
                    | x :: u =>
                        if ((x =? 43) || (x =? 45))%N then ([x], u) else ([], t)
                    | [] => ([], t)
                    end in
                  match digits1 t' with
                  | Some (ds, r) => Some (c :: esign ++ ds, r)
                  | None => None
                  end
                else Some ([], s3)
            | [] => Some ([], s3)
            end in
          match exp_part with
          | None => None
          | Some (ex, s4) => Some (sign ++ int ++ frac ++ ex, s4)
          end
      end
  end.

Fixpoint strip_prefix (w s : jsstring) : option jsstring :=
  match w with
  | [] => Some s
  | c :: w' =>
      match s with
      | x :: s' => if (x =? c)%N then strip_prefix w' s' else None
      | [] => None
      end
  end.

(** A value that is neither an object, an array nor a string. *)
Definition parse_scalar (s : jsstring) : parsed json :=
  match strip_prefix (lit "true") s with
  | Some rest => Parsed (JBool true) rest
  | None =>
  match strip_prefix (lit "false") s with
  | Some rest => Parsed (JBool false) rest
  | None =>
  match strip_prefix (lit "null") s with
  | Some rest => Parsed JNull rest
  | None =>
  match parse_number s with
  | Some (lexeme, rest) => Parsed (JNumber lexeme) rest
  | None => Invalid
  end end end end.

Definition comma : char := 44%N.
Definition colon : char := 58%N.
Definition lbracket : char := 91%N.
Definition rbracket : char := 93%N.

Fixpoint parse_value (fuel : nat) (s : jsstring) : parsed json :=
  match fuel with
  | O => Exhausted
  | S fuel' =>
      match skip_ws s with
      | [] => Invalid
      | c :: t =>
          if (c =? lbrace)%N then
            match skip_ws t with
            | [] => Invalid
            | c' :: t' =>
                if (c' =? rbrace)%N then Parsed (JObject []) t'
                else
                  match parse_members fuel' (c' :: t') with
                  | Parsed ms rest => Parsed (JObject ms) rest
                  | Invalid => Invalid
                  | Exhausted => Exhausted
                  end
            end
          else if (c =? lbracket)%N then
            match skip_ws t with
            | [] => Invalid
            | c' :: t' =>
                if (c' =? rbracket)%N then Parsed (JArray []) t'
                else
                  match parse_elements fuel' (c' :: t') with
                  | Parsed vs rest => Parsed (JArray vs) rest
                  | Invalid => Invalid
                  | Exhausted => Exhausted
                  end
            end
          else if (c =? dquote)%N then
            match parse_chars t with
            | Some (str, rest) => Parsed (JString str) rest
            | None => Invalid
            end
          else parse_scalar (c :: t)
      end
  end

with parse_elements (fuel : nat) (s : jsstring) : parsed (list json) :=
  match fuel with
  | O => Exhausted
  | S fuel' =>
      match parse_value fuel' s with
      | Parsed v rest =>
          match skip_ws rest with
          | [] => Invalid
          | c :: t =>
              if (c =? comma)%N then
                match parse_elements fuel' t with
                | Parsed vs rest' => Parsed (v :: vs) rest'
                | Invalid => Invalid
                | Exhausted => Exhausted
                end
              else if (c =? rbracket)%N then Parsed [v] t
              else Invalid
          end
      | Invalid => Invalid
      | Exhausted => Exhausted
      end
  end

with parse_members (fuel : nat) (s : jsstring)
  : parsed (list (jsstring * json)) :=
  match fuel with
  | O => Exhausted
  | S fuel' =>
      match skip_ws s with
      | [] => Invalid
      | q :: t =>
          if (q =? dquote)%N then
            match parse_chars t with
            | None => Invalid
            | Some (key, rest) =>
                match skip_ws rest with
                | [] => Invalid
                | c :: t2 =>
                    if (c =? colon)%N then
                      match parse_value fuel' t2 with
                      | Parsed v rest2 =>
                          match skip_ws rest2 with
                          | [] => Invalid
                          | c2 :: t3 =>
                              if (c2 =? comma)%N then
                                match parse_members fuel' t3 with
                                | Parsed ms rest3 =>
                                    Parsed ((key, v) :: ms) rest3
                                | Invalid => Invalid
                                | Exhausted => Exhausted
                                end
                              else if (c2 =? rbrace)%N
                                   then Parsed [(key, v)] t3
                                   else Invalid
                          end
                      | Invalid => Invalid
                      | Exhausted => Exhausted
                      end
                    else Invalid
                end
            end
          else Invalid
      end
  end.

(** ** Completions, errors and the console *)

Inductive exn : Type :=
| SyntaxError       (* thrown by [JSON.parse] *)
| TransportError.   (* the remote call failed *)

Inductive completion (A : Type) : Type :=
| Normal (a : A)
| Throw (e : exn).

Arguments Throw {A}.

Inductive console : Type :=
| ConsoleError (label : string) (error : exn)
| ConsoleWarn (message : string).

(** Fuel that [parse_value] never uses up on [s]. *)
Definition json_fuel (s : jsstring) : nat := 2 * length s + 1.

(** [JSON.parse(text)] without a reviver. *)
Definition JSON_parse (text : jsstring) : completion json :=
  match parse_value (json_fuel text) text with
  | Parsed v rest =>
      match skip_ws rest with
      | [] => Normal v
      | _ :: _ => Throw SyntaxError
      end
  | Invalid => Throw SyntaxError
  | Exhausted => Throw SyntaxError
  end.

(** ** [analyzeSlideImage]

    The remote call is an opaque collaborator: the function is modelled
    from the completion of [ai.models.generateContent] on, that is an
    error thrown by the transport or a response whose [text] is a string
    or [undefined] ([None]).  The result is the console output and the
    completion of the promise. *)

Definition default_result : json :=
  JObject [(lit "backgroundColor", JString (lit "#FFFFFF"));
           (lit "elements", JArray [])].

(** [!text] *)
Definition falsy (text : option jsstring) : bool :=
  match text with
  | None => true
  | Some [] => true
  | Some (_ :: _) => false
  end.

Definition text_of (text : option jsstring) : jsstring :=
  match text with
  | Some t => t
  | None => []
  end.

Section Analyze.

(** What the body does with a non-empty text before parsing, and the
    runtime's [JSON.parse]. *)
Variable clean : jsstring -> jsstring.
Variable parse : jsstring -> completion json.

(** The [try] block. *)
Definition try_block (response : completion (option jsstring))
  : completion json :=
  match response with
  | Throw e => Throw e
  | Normal text =>
      if falsy text then Normal default_result
      else parse (clean (text_of text))
  end.

(** The [catch] block of the sanitising variant: it logs, and for a
    [SyntaxError] announces a retry whose body only reads the message;
    then it throws the error again. *)
Definition catch_block (error : exn) : list console * completion json :=
  let log := [ConsoleError "Gemini Analysis Error:" error] in
  let log :=
    match error with
    | SyntaxError =>
        log ++ [ConsoleWarn "Retrying with more aggressive cleaning..."]
    | _ => log
    end in
  (log, Throw error).

Definition analyzeSlideImage_with (response : completion (option jsstring))
  : list console * completion json :=
  match try_block response with
  | Normal result => ([], Normal result)
  | Throw error => catch_block error
  end.

End Analyze.

Definition analyzeSlideImage
  : completion (option jsstring) -> list console * completion json :=
  analyzeSlideImage_with sanitizeJsonString JSON_parse.

(** ** The plain variant, [src/services/geminiService.ts] *)

Module GeminiService.

(** [/^```json\s*/] *)
Definition re_fence_open : regex :=
  Cat Bos (word (lit "```json") (Star is_white_space)).

(** [/\s*```$/] *)
Definition re_fence_close : regex :=
  Cat (Star is_white_space) (word (lit "```") Eos).

Definition jsonStr (text : jsstring) : jsstring :=
  trim (replace re_fence_close [] (replace re_fence_open [] text)).

Section Analyze.

Variable clean : jsstring -> jsstring.
Variable parse : jsstring -> completion json.

(** The [catch] block: it logs and throws the error again. *)
Definition catch_block (error : exn) : list console * completion json :=
  ([ConsoleError "Gemini Analysis Error:" error], Throw error).

Definition analyzeSlideImage_with (response : completion (option jsstring))
  : list console * completion json :=
  match try_block clean parse response with
  | Normal result => ([], Normal result)
  | Throw error => catch_block error
  end.

End Analyze.

Definition analyzeSlideImage
  : completion (option jsstring) -> list console * completion json :=
  analyzeSlideImage_with jsonStr JSON_parse.

End GeminiService.

(** ** The image sent to the model

    Both variants pass [base64Image.split(',')[1]] as the data of the
    request: the piece between the first and the second comma of the data
    URL, or [undefined] when the string holds no comma. *)

(** [s.split(sep)] for a one-character separator. *)
Fixpoint split (sep : char) (s : jsstring) : list jsstring :=
  match s with
  | [] => [[]]
  | c :: s' =>
      if (c =? sep)%N then [] :: split sep s'
      else
        match split sep s' with
        | piece :: more => (c :: piece) :: more
        | [] => [[c]]
        end
  end.

(** [pieces.join(sep)] *)
Fixpoint join (sep : char) (pieces : list jsstring) : jsstring :=
  match pieces with
  | [] => []
  | [piece] => piece
  | piece :: more => piece ++ sep :: join sep more
  end.

Definition inlineData_data (base64Image : jsstring) : option jsstring :=
  nth_error (split comma base64Image) 1.

(** The line feed of the source's string literals. *)
Definition nl : jsstring := [10%N].

(** ** The vocabulary of the specification *)

(** The ranges 0x00-0x08, 0x0B, 0x0C, 0x0E-0x1F and 0x7F-0x9F. *)
Definition removed (c : char) : Prop :=
  (c <= 0x08 \/ c = 0x0B \/ c = 0x0C \/ 0x0E <= c <= 0x1F
   \/ 0x7F <= c <= 0x9F)%N.

(** The first four characters of [t] exist and are hexadecimal digits. *)
Definition followed_by_hex4 (t : jsstring) : bool :=
  match t with
  | h1 :: h2 :: h3 :: h4 :: _ =>
      is_hex_digit h1 && is_hex_digit h2 && is_hex_digit h3 && is_hex_digit h4
  | _ => false
  end.

(** [s] starts with a backslash and a [u] that four hexadecimal digits do
    not follow. *)
Definition bad_escape (s : jsstring) : bool :=
  match s with
  | a :: b :: t =>
      (a =? backslash)%N && (b =? letter_u)%N && negb (followed_by_hex4 t)
  | _ => false
  end.

(** The repair in the words of the specification: the backslash of every
    bad escape is dropped and nothing else changes. *)
Fixpoint repair (s : jsstring) : jsstring :=
  match s with
  | [] => []
  | c :: s' => if bad_escape s then repair s' else c :: repair s'
  end.

(** The words of the specification for the bounds step: what is kept is
    the span from the first opening brace to the last closing brace, both
    included, and what stands before and after it is dropped. *)
Definition keeps_brace_span (cleaned : jsstring) : Prop :=
  exists pre mid post,
    cleaned = pre ++ (lbrace :: mid ++ [rbrace]) ++ post
    /\ ~ In lbrace pre /\ ~ In rbrace post
    /\ jsonBounds cleaned = lbrace :: mid ++ [rbrace].

(** The words of the specification for a missing background colour: the
    call returns a result whose [backgroundColor] is "#FFFFFF". *)
Definition background_defaulted
  (analyze : completion (option jsstring) -> list console * completion json)
  (text : jsstring) : Prop :=
  exists log result,
    analyze (Normal (Some text)) = (log, Normal result)
    /\ get (lit "backgroundColor") result = Some (JString (lit "#FFFFFF")).

(** [a] is [b] with some characters deleted, the others in their order. *)
Inductive Subseq : jsstring -> jsstring -> Prop :=
| Subseq_nil : Subseq [] []
| Subseq_keep c a b : Subseq a b -> Subseq (c :: a) (c :: b)
| Subseq_drop c a b : Subseq a b -> Subseq a (c :: b).

(** Every character of [w] is white space. *)
Definition blank (w : jsstring) : Prop :=
  Forall (fun c => is_white_space c = true) w.

(** Nothing, or one white-space character. *)
Definition blank1 (w : jsstring) : Prop :=
  w = [] \/ exists c, is_white_space c = true /\ w = [c].

(** No backslash-u of [s] lacks its four hexadecimal digits. *)
Definition escapes_valid (s : jsstring) : Prop :=
  forall pre post,
    s = pre ++ backslash :: letter_u :: post -> followed_by_hex4 post = true.

(** A text the later steps of [sanitizeJsonString] have nothing to do on:
    no character of the removed control ranges and no bad escape. *)
Definition clean (s : jsstring) : Prop :=
  Forall (fun c => ~ removed c) s /\ escapes_valid s.

(** [t] without its first character when that is white space: what the
    optional [\s] of the opening pattern takes. *)
Definition drop_one_space (t : jsstring) : jsstring :=
  match t with
  | c :: t' => if is_white_space c then t' else t
  | [] => []
  end.

(** ** Tactics *)

Ltac break_match_in H :=
  match type of H with
  | context [match ?x with _ => _ end] => destruct x eqn:?
  end.

Ltac break_matches :=
  repeat match goal with
         | H : context [match ?x with _ => _ end] |- _ =>
             destruct x eqn:?; try discriminate
         end.

(** * Properties *)

(** ** Global replacement, one step at a time *)

Lemma replace_from_skip r by_ i k c s :
  replace_from r by_ i (S k) (c :: s) = replace_from r by_ (S i) k s.
Proof. reflexivity. Qed.

Lemma replace_from_miss r by_ i c s :
  exec_at r i (c :: s) = None ->
  replace_from r by_ i 0 (c :: s) = c :: replace_from r by_ (S i) 0 s.
Proof. intros H. simpl. rewrite H. reflexivity. Qed.

Lemma replace_from_hit r by_ i c s rest k :
  exec_at r i (c :: s) = Some rest ->
  length (c :: s) - length rest = S k ->
  replace_from r by_ i 0 (c :: s) = by_ ++ replace_from r by_ (S i) k s.
Proof.
  intros H L. cbn [replace_from]. rewrite H, L. reflexivity.
Qed.

Lemma replace_from_nil_miss r by_ i :
  exec_at r i [] = None -> replace_from r by_ i 0 [] = [].
Proof. intros H. simpl. rewrite H. reflexivity. Qed.

(** ** Control characters *)

Lemma is_control_removed c : is_control c = true <-> removed c.
Proof.
  unfold is_control, removed, in_range.
  rewrite !orb_true_iff, !andb_true_iff, !N.leb_le, !N.eqb_eq. lia.
Qed.

Lemma is_control_kept c : is_control c = false <-> ~ removed c.
Proof.
  rewrite <- is_control_removed. destruct (is_control c); intuition congruence.
Qed.

Lemma exec_class p i s :
  exec_at (Class p) i s =
  match s with
  | c :: s' => if p c then Some s' else None
  | [] => None
  end.
Proof. destruct s; reflexivity. Qed.

Lemma replace_from_class p s :
  forall i, replace_from (Class p) [] i 0 s = filter (fun c => negb (p c)) s.
Proof.
  induction s as [|c s IH]; intros i.
  - reflexivity.
  - cbn [filter]. destruct (p c) eqn:E; cbn [negb].
    + rewrite (@replace_from_hit _ _ _ _ _ s 0).
      * apply IH.
      * rewrite exec_class, E. reflexivity.
      * cbn [length]. lia.
    + rewrite replace_from_miss.
      * f_equal. apply IH.
      * rewrite exec_class, E. reflexivity.
Qed.

Lemma stripControl_filter s :
  stripControl s = filter (fun c => negb (is_control c)) s.
Proof. apply replace_from_class. Qed.

(** C4. The control-character step deletes exactly the characters of the
    ranges 0x00-0x08, 0x0B, 0x0C, 0x0E-0x1F and 0x7F-0x9F: what is left is
    the input filtered, in order and with repetitions, by being outside
    those ranges; a character is in the output if and only if it is in the
    input and outside the ranges; tab, line feed and carriage return are
    outside them.  On the input [a, 0x01, 0x09, b] the whole of
    [sanitizeJsonString] gives [a, 0x09, b]. *)
Theorem control_characters_deleted :
  (forall s, stripControl s = filter (fun c => negb (is_control c)) s)
  /\ (forall c, is_control c = true <-> removed c)
  /\ (forall s c, In c (stripControl s) <-> In c s /\ ~ removed c)
  /\ (~ removed 0x09 /\ ~ removed 0x0A /\ ~ removed 0x0D)%N
  /\ (forall str, sanitizeJsonString str =
                  stripControl (fixUnicodeEscapes (jsonBounds
                    (trim (stripFences str)))))
  /\ sanitizeJsonString [97; 0x01; 0x09; 98]%N = [97; 0x09; 98]%N.
Proof.
  split; [exact stripControl_filter|].
  split; [exact is_control_removed|].
  split.
  { intros s c. rewrite stripControl_filter, filter_In, negb_true_iff.
    rewrite is_control_kept. reflexivity. }
  split.
  { unfold removed. repeat split; lia. }
  split; reflexivity.
Qed.

(** C9. No character of the removed control ranges is left in the output
    of [sanitizeJsonString]: deleting them is its last step. *)
Theorem sanitize_output_has_no_control s :
  Forall (fun c => ~ removed c) (sanitizeJsonString s).
Proof.
  unfold sanitizeJsonString. rewrite stripControl_filter.
  apply Forall_forall. intros c H.
  apply filter_In in H. destruct H as [_ H].
  apply negb_true_iff in H. now apply is_control_kept.
Qed.

(** ** Unicode escapes *)

Lemma exec_bad_unicode i s :
  exec_at re_bad_unicode i s =
  match s with
  | _ :: _ :: t => if bad_escape s then Some t else None
  | _ => None
  end.
Proof.
  unfold exec_at, re_bad_unicode, bad_escape, followed_by_hex4.
  destruct s as [|a [|b t]]; cbn [word run].
  - reflexivity.
  - destruct (a =? backslash)%N; reflexivity.
  - destruct (a =? backslash)%N; [|reflexivity].
    destruct (b =? letter_u)%N; [|reflexivity].
    cbn [andb].
    destruct t as [|h1 [|h2 [|h3 [|h4 t]]]]; cbn;
      repeat match goal with
             | |- context [is_hex_digit ?h] => destruct (is_hex_digit h); cbn
             end; reflexivity.
Qed.

Lemma bad_escape_letter_u t : bad_escape (letter_u :: t) = false.
Proof. destruct t; reflexivity. Qed.

Lemma replace_from_repair n :
  forall s i, length s <= n ->
    replace_from re_bad_unicode [letter_u] i 0 s = repair s.
Proof.
  induction n as [|n IH]; intros s i L.
  - destruct s; [|cbn in L; lia].
    apply replace_from_nil_miss. now rewrite exec_bad_unicode.
  - destruct s as [|a [|b t]].
    + apply replace_from_nil_miss. now rewrite exec_bad_unicode.
    + rewrite replace_from_miss by now rewrite exec_bad_unicode.
      reflexivity.
    + cbn [repair]. destruct (bad_escape (a :: b :: t)) eqn:E.
      * rewrite (@replace_from_hit _ _ _ _ _ t 1).
        -- rewrite replace_from_skip, IH by (cbn in L |- *; lia).
           assert (b = letter_u) as ->.
           { cbn in E. apply andb_true_iff in E. destruct E as [E _].
             apply andb_true_iff in E. destruct E as [_ E].
             now apply N.eqb_eq in E. }
           rewrite bad_escape_letter_u. reflexivity.
        -- now rewrite exec_bad_unicode, E.
        -- cbn [length]. lia.
      * rewrite replace_from_miss by now rewrite exec_bad_unicode, E.
        f_equal. apply IH. cbn in L |- *. lia.
Qed.

Lemma fixUnicodeEscapes_repair s : fixUnicodeEscapes s = repair s.
Proof. apply (@replace_from_repair (length s)). lia. Qed.

Lemma hex4_backslash_1 t : followed_by_hex4 (backslash :: t) = false.
Proof. destruct t as [|a [|b [|c t]]]; reflexivity. Qed.

Lemma hex4_backslash_2 h t : followed_by_hex4 (h :: backslash :: t) = false.
Proof.
  destruct t as [|a [|b t]]; try reflexivity.
  cbn. now rewrite andb_false_r.
Qed.

(** What follows an occurrence of backslash-u never decides whether an
    earlier escape is bad. *)
Lemma bad_escape_before c p post :
  bad_escape (c :: p ++ backslash :: letter_u :: post) = bad_escape (c :: p).
Proof.
  destruct p as [|b [|h1 [|h2 [|h3 [|h4 p]]]]]; cbn [app bad_escape].
  - cbn. now rewrite andb_false_r.
  - rewrite hex4_backslash_1. reflexivity.
  - rewrite hex4_backslash_2. reflexivity.
  - assert (followed_by_hex4 (h1 :: h2 :: backslash :: letter_u :: post)
            = false) as ->.
    { cbn. now rewrite andb_false_r. }
    reflexivity.
  - assert (followed_by_hex4 (h1 :: h2 :: h3 :: backslash :: letter_u :: post)
            = false) as ->.
    { cbn. now rewrite andb_false_r. }
    reflexivity.
  - reflexivity.
Qed.

Lemma repair_app pre post :
  repair (pre ++ backslash :: letter_u :: post) =
  repair pre ++ repair (backslash :: letter_u :: post).
Proof.
  induction pre as [|c pre IH].
  - reflexivity.
  - change ((c :: pre) ++ backslash :: letter_u :: post)
      with (c :: pre ++ backslash :: letter_u :: post).
    cbn [repair]. rewrite bad_escape_before, IH.
    destruct (bad_escape (c :: pre)); reflexivity.
Qed.

Lemma repair_escape post :
  repair (backslash :: letter_u :: post) =
  (if followed_by_hex4 post then [backslash; letter_u] else [letter_u])
  ++ repair post.
Proof.
  cbn [repair]. rewrite bad_escape_letter_u.
  cbn [bad_escape]. rewrite !N.eqb_refl. cbn [andb].
  destruct (followed_by_hex4 post); reflexivity.
Qed.

Lemma repair_without_escape s :
  (forall pre post, s <> pre ++ backslash :: letter_u :: post) ->
  repair s = s.
Proof.
  induction s as [|c s IH]; intros H.
  - reflexivity.
  - cbn [repair]. destruct (bad_escape (c :: s)) eqn:E.
    + exfalso. destruct s as [|b t]; [discriminate|].
      cbn in E. apply andb_true_iff in E. destruct E as [E _].
      apply andb_true_iff in E. destruct E as [E1 E2].
      apply N.eqb_eq in E1, E2. subst. now apply (H [] t).
    + f_equal. apply IH. intros pre post ->. now apply (H (c :: pre) post).
Qed.

(** C3. The escape step replaces every backslash-u that four hexadecimal
    digits do not follow with a plain u and leaves every backslash-u that
    four hexadecimal digits follow as it is: around any occurrence the
    text before and the text after are repaired on their own, and a string
    without backslash-u is unchanged.  [sanitizeJsonString] turns
    backslash-u12 foo into u12 foo and leaves backslash-u1234 foo alone. *)
Theorem unicode_escapes_repaired :
  (forall pre post,
     fixUnicodeEscapes (pre ++ backslash :: letter_u :: post) =
     fixUnicodeEscapes pre
     ++ (if followed_by_hex4 post then [backslash; letter_u] else [letter_u])
     ++ fixUnicodeEscapes post)
  /\ (forall s,
        (forall pre post, s <> pre ++ backslash :: letter_u :: post) ->
        fixUnicodeEscapes s = s)
  /\ (forall s, fixUnicodeEscapes s = repair s)
  /\ (forall str, sanitizeJsonString str =
                  stripControl (fixUnicodeEscapes (jsonBounds
                    (trim (stripFences str)))))
  /\ sanitizeJsonString (backslash :: lit "u12 foo") = lit "u12 foo"
  /\ sanitizeJsonString (backslash :: lit "u1234 foo")
     = backslash :: lit "u1234 foo".
Proof.
  split.
  { intros pre post. rewrite !fixUnicodeEscapes_repair.
    rewrite repair_app, repair_escape. reflexivity. }
  split.
  { intros s H. rewrite fixUnicodeEscapes_repair.
    now apply repair_without_escape. }
  split; [exact fixUnicodeEscapes_repair|].
  split; [reflexivity|].
  split; reflexivity.
Qed.

Lemma unicode_escapes_repaired_witness :
  fixUnicodeEscapes (lit "a" ++ backslash :: letter_u :: lit "12 ")
  = lit "au12 "
  /\ fixUnicodeEscapes (lit "a" ++ backslash :: letter_u :: lit "12aF")
     = lit "a" ++ backslash :: letter_u :: lit "12aF"
  /\ fixUnicodeEscapes (lit "foo") = lit "foo".
Proof.
  destruct unicode_escapes_repaired as (Hocc & Hnone & _).
  split; [|split].
  - rewrite Hocc. reflexivity.
  - rewrite Hocc. reflexivity.
  - apply Hnone. intros pre post.
    destruct pre as [|a [|b [|c [|d pre]]]]; discriminate.
Defined.

(** ** Object bounds *)

Lemma indexOf_absent c s : ~ In c s -> indexOf c s = (-1)%Z.
Proof.
  induction s as [|x s IH]; intros H.
  - reflexivity.
  - cbn [indexOf]. destruct (N.eqb_spec x c) as [->|_].
    + exfalso. apply H. now left.
    + rewrite IH by (intros K; apply H; now right). reflexivity.
Qed.

Lemma indexOf_first c pre t :
  ~ In c pre -> indexOf c (pre ++ c :: t) = Z.of_nat (length pre).
Proof.
  induction pre as [|x pre IH]; intros H.
  - cbn. now rewrite N.eqb_refl.
  - cbn [app indexOf]. destruct (N.eqb_spec x c) as [->|_].
    + exfalso. apply H. now left.
    + rewrite IH by (intros K; apply H; now right).
      destruct (Z.eqb_spec (Z.of_nat (length pre)) (-1)); cbn [length]; lia.
Qed.

Lemma lastIndexOf_absent c s : ~ In c s -> lastIndexOf c s = (-1)%Z.
Proof.
  induction s as [|x s IH]; intros H.
  - reflexivity.
  - cbn [lastIndexOf]. rewrite IH by (intros K; apply H; now right).
    destruct (N.eqb_spec x c) as [->|_]; [|reflexivity].
    exfalso. apply H. now left.
Qed.

Lemma lastIndexOf_last c pre post :
  ~ In c post -> lastIndexOf c (pre ++ c :: post) = Z.of_nat (length pre).
Proof.
  intros H. induction pre as [|x pre IH].
  - cbn. rewrite lastIndexOf_absent by assumption. now rewrite N.eqb_refl.
  - cbn [app lastIndexOf]. rewrite IH.
    destruct (Z.eqb_spec (Z.of_nat (length pre)) (-1)); cbn [length]; lia.
Qed.

(** Between two positions of the string, in either order of the
    arguments, [substring] is the text from the smaller to the larger. *)
Lemma clamp_inside (len x : nat) :
  x <= len -> clamp (Z.of_nat len) (Z.of_nat x) = Z.of_nat x.
Proof. unfold clamp. lia. Qed.

Lemma substring_between s (x y : nat) :
  x <= y <= length s ->
  substring s (Z.of_nat x) (Z.of_nat y) = firstn (y - x) (skipn x s)
  /\ substring s (Z.of_nat y) (Z.of_nat x) = firstn (y - x) (skipn x s).
Proof.
  intros H. unfold substring.
  rewrite !clamp_inside by lia.
  rewrite (Z.min_l (Z.of_nat x)), (Z.max_r (Z.of_nat x)) by lia.
  rewrite (Z.min_r (Z.of_nat y)), (Z.max_l (Z.of_nat y)) by lia.
  replace (Z.to_nat (Z.of_nat y - Z.of_nat x)) with (y - x) by lia.
  rewrite Nat2Z.id. split; reflexivity.
Qed.

Lemma middle_of (pre mid post : jsstring) :
  firstn (length (pre ++ mid) - length pre) (skipn (length pre)
    (pre ++ mid ++ post)) = mid.
Proof.
  rewrite skipn_app, skipn_all, Nat.sub_diag. cbn [skipn app].
  rewrite length_app.
  replace (length pre + length mid - length pre) with (length mid) by lia.
  rewrite firstn_app, firstn_all, Nat.sub_diag. cbn. apply app_nil_r.
Qed.

Lemma jsonBounds_ordered pre mid post :
  ~ In lbrace pre -> ~ In rbrace post ->
  jsonBounds (pre ++ lbrace :: mid ++ rbrace :: post) = lbrace :: mid ++ [rbrace].
Proof.
  intros Hpre Hpost. unfold jsonBounds.
  rewrite indexOf_first by assumption.
  replace (pre ++ lbrace :: mid ++ rbrace :: post)
    with ((pre ++ lbrace :: mid) ++ rbrace :: post)
    by (rewrite <- app_assoc; reflexivity).
  rewrite lastIndexOf_last by assumption.
  destruct (Z.eqb_spec (Z.of_nat (length pre)) (-1)); [lia|].
  destruct (Z.eqb_spec (Z.of_nat (length (pre ++ lbrace :: mid))) (-1)); [lia|].
  cbn [negb andb].
  replace (Z.of_nat (length (pre ++ lbrace :: mid)) + 1)%Z
    with (Z.of_nat (length (pre ++ lbrace :: mid ++ [rbrace])))
    by (rewrite !length_app; cbn [length]; rewrite length_app; cbn [length]; lia).
  replace ((pre ++ lbrace :: mid) ++ rbrace :: post)
    with (pre ++ (lbrace :: mid ++ [rbrace]) ++ post)
    by (rewrite <- !app_assoc; cbn [app]; rewrite <- app_assoc; reflexivity).
  destruct (@substring_between (pre ++ (lbrace :: mid ++ [rbrace]) ++ post)
              (length pre) (length (pre ++ lbrace :: mid ++ [rbrace])))
    as [-> _].
  { rewrite !length_app. lia. }
  apply middle_of.
Qed.

Lemma jsonBounds_swapped pre mid post :
  ~ In lbrace pre -> ~ In lbrace mid -> ~ In rbrace mid -> ~ In rbrace post ->
  jsonBounds (pre ++ rbrace :: mid ++ lbrace :: post) = mid.
Proof.
  intros Hpre Hmid Hmid' Hpost. unfold jsonBounds.
  rewrite lastIndexOf_last.
  2:{ rewrite in_app_iff. intros [K|[K|K]]; [now apply Hmid'|discriminate K|
                                               now apply Hpost]. }
  replace (pre ++ rbrace :: mid ++ lbrace :: post)
    with ((pre ++ rbrace :: mid) ++ lbrace :: post)
    by (rewrite <- app_assoc; reflexivity).
  rewrite indexOf_first.
  2:{ rewrite in_app_iff. intros [K|[K|K]]; [now apply Hpre|discriminate K|
                                               now apply Hmid]. }
  destruct (Z.eqb_spec (Z.of_nat (length pre)) (-1)); [lia|].
  destruct (Z.eqb_spec (Z.of_nat (length (pre ++ rbrace :: mid))) (-1)); [lia|].
  cbn [negb andb].
  replace (Z.of_nat (length pre) + 1)%Z
    with (Z.of_nat (length (pre ++ [rbrace])))
    by (rewrite length_app; cbn [length]; lia).
  replace (pre ++ rbrace :: mid)
    with ((pre ++ [rbrace]) ++ mid)
    by (rewrite <- app_assoc; reflexivity).
  replace (((pre ++ [rbrace]) ++ mid) ++ lbrace :: post)
    with ((pre ++ [rbrace]) ++ mid ++ lbrace :: post)
    by (rewrite <- !app_assoc; reflexivity).
  destruct (@substring_between ((pre ++ [rbrace]) ++ mid ++ lbrace :: post)
              (length (pre ++ [rbrace])) (length ((pre ++ [rbrace]) ++ mid)))
    as [_ ->].
  { rewrite !length_app. lia. }
  apply middle_of.
Qed.

Lemma jsonBounds_no_brace s :
  ~ In lbrace s \/ ~ In rbrace s -> jsonBounds s = s.
Proof.
  intros [H|H]; unfold jsonBounds.
  - rewrite indexOf_absent by assumption. reflexivity.
  - rewrite lastIndexOf_absent by assumption.
    rewrite Z.eqb_refl. cbn [negb]. now rewrite andb_false_r.
Qed.

(** C2, as stated, fails on the input of three characters: closing brace,
    x, opening brace.  It holds both braces, the fences and the trimming
    leave it alone, and the bounds step answers x, which is not a span
    from an opening to a closing brace. *)
Lemma json_bounds_unordered_counterexample :
  trim (stripFences (lit "}x{")) = lit "}x{"
  /\ In lbrace (lit "}x{") /\ In rbrace (lit "}x{")
  /\ jsonBounds (lit "}x{") = lit "x"
  /\ sanitizeJsonString (lit "}x{") = lit "x"
  /\ ~ keeps_brace_span (lit "}x{").
Proof.
  split; [reflexivity|].
  split; [cbn; tauto|].
  split; [cbn; tauto|].
  split; [reflexivity|].
  split; [reflexivity|].
  intros (pre & mid & post & _ & _ & _ & H). discriminate H.
Qed.

(** C2, amended.  When the first opening brace stands before the last
    closing brace, the bounds step keeps exactly the span from the one to
    the other, both included, and drops what is before and after it, and
    [sanitizeJsonString] goes on with that span; when the text holds no
    opening brace or no closing brace the step leaves it unchanged. *)
Theorem json_bounds_ordered_span :
  (forall pre mid post,
     ~ In lbrace pre -> ~ In rbrace post ->
     jsonBounds (pre ++ lbrace :: mid ++ rbrace :: post)
     = lbrace :: mid ++ [rbrace])
  /\ (forall str pre mid post,
        trim (stripFences str) = pre ++ lbrace :: mid ++ rbrace :: post ->
        ~ In lbrace pre -> ~ In rbrace post ->
        keeps_brace_span (trim (stripFences str))
        /\ sanitizeJsonString str
           = stripControl (fixUnicodeEscapes (lbrace :: mid ++ [rbrace])))
  /\ (forall cleaned,
        ~ In lbrace cleaned \/ ~ In rbrace cleaned ->
        jsonBounds cleaned = cleaned).
Proof.
  split; [exact jsonBounds_ordered|].
  split; [|exact jsonBounds_no_brace].
  intros str pre mid post E Hpre Hpost. split.
  - exists pre, mid, post. rewrite E. repeat split; try assumption.
    + cbn [app]. rewrite <- app_assoc. reflexivity.
    + now apply jsonBounds_ordered.
  - unfold sanitizeJsonString. rewrite E.
    now rewrite jsonBounds_ordered.
Qed.

Lemma json_bounds_ordered_span_witness :
  jsonBounds (lit "noise" ++ lbrace :: lit "a" ++ rbrace :: lit "trailing")
  = lit "{a}"
  /\ sanitizeJsonString (lit " noise{a}trailing ") = lit "{a}"
  /\ jsonBounds (lit "no braces") = lit "no braces".
Proof.
  destruct json_bounds_ordered_span as (Hstep & Hall & Hnone).
  split; [|split].
  - apply Hstep; cbn; intuition discriminate.
  - apply (Hall (lit " noise{a}trailing ") (lit "noise") (lit "a")
             (lit "trailing")).
    + reflexivity.
    + cbn; intuition discriminate.
    + cbn; intuition discriminate.
  - apply Hnone. left. cbn; intuition discriminate.
Defined.

(** C10. When the last closing brace stands strictly before the first
    opening brace, [substring] swaps its arguments and the bounds step
    answers the text strictly between the two braces, both excluded;
    [sanitizeJsonString] then goes on with that text (the escape and
    control-character steps still apply to it).  The three characters
    closing brace, x, opening brace give x. *)
Theorem json_bounds_swapped_between :
  forall str pre mid post,
    trim (stripFences str) = pre ++ rbrace :: mid ++ lbrace :: post ->
    ~ In lbrace pre -> ~ In lbrace mid ->
    ~ In rbrace mid -> ~ In rbrace post ->
    jsonBounds (trim (stripFences str)) = mid
    /\ sanitizeJsonString str = stripControl (fixUnicodeEscapes mid).
Proof.
  intros str pre mid post E H1 H2 H3 H4.
  unfold sanitizeJsonString. rewrite E.
  rewrite jsonBounds_swapped by assumption. split; reflexivity.
Qed.

Lemma json_bounds_swapped_between_witness :
  jsonBounds (trim (stripFences (lit "}x{"))) = lit "x"
  /\ sanitizeJsonString (lit "}x{") = lit "x".
Proof.
  apply (@json_bounds_swapped_between (lit "}x{") [] (lit "x") []).
  - reflexivity.
  - cbn; tauto.
  - cbn; intuition discriminate.
  - cbn; intuition discriminate.
  - cbn; tauto.
Defined.

(** ** [JSON.parse] never runs out of fuel *)

Lemma drop_while_length p s : length (drop_while p s) <= length s.
Proof.
  induction s as [|c s IH]; cbn; [lia|].
  destruct (p c); cbn; lia.
Qed.

Lemma skip_ws_shorter s r : skip_ws s = r -> length r <= length s.
Proof. intros <-. apply drop_while_length. Qed.

Lemma span_shorter p s a b : span p s = (a, b) -> length b <= length s.
Proof.
  revert a b. induction s as [|c s IH]; intros a b H; cbn in H.
  - injection H as <- <-. cbn. lia.
  - destruct (p c).
    + destruct (span p s) as [a' b'] eqn:E. injection H as <- <-.
      specialize (IH _ _ eq_refl). cbn. lia.
    + injection H as <- <-. lia.
Qed.

Lemma digits1_consumes s ds r : digits1 s = Some (ds, r) -> length r < length s.
Proof.
  unfold digits1. destruct s as [|c s]; cbn; [discriminate|].
  destruct (is_digit c); [|discriminate].
  destruct (span is_digit s) as [a b] eqn:E. intros H. injection H as <- <-.
  apply span_shorter in E. cbn. lia.
Qed.

Lemma parse_chars_consumes s :
  forall str rest, parse_chars s = Some (str, rest) -> length rest < length s.
Proof.
  induction s as [s IH] using (well_founded_induction
                                 (Wf_nat.well_founded_ltof _ (@length char))).
  unfold Wf_nat.ltof in IH.
  intros str rest H. destruct s as [|c s1]; [discriminate|].
  cbn [parse_chars] in H.
  repeat (break_match_in H; try discriminate H);
    injection H as <- <-; subst;
    repeat match goal with
           | E : parse_chars _ = Some _ |- _ =>
               apply IH in E; [|cbn [length]; lia]
           end;
    cbn [length] in *; lia.
Qed.

Lemma strip_prefix_length w :
  forall s rest, strip_prefix w s = Some rest ->
                 length rest + length w = length s.
Proof.
  induction w as [|c w IH]; intros s rest H; cbn in H.
  - injection H as <-. cbn. lia.
  - destruct s as [|x s]; [discriminate|].
    destruct (x =? c)%N; [|discriminate].
    apply IH in H. cbn. lia.
Qed.

Lemma parse_number_consumes s lexeme rest :
  parse_number s = Some (lexeme, rest) -> length rest < length s.
Proof.
  unfold parse_number. intros H.
  break_matches;
    repeat match goal with
           | E : Some _ = Some _ |- _ => injection E as ? ?; subst
           | E : (_, _) = (_, _) |- _ => injection E as ? ?; subst
           | E : span _ _ = (_, _) |- _ => apply span_shorter in E
           | E : digits1 _ = Some _ |- _ => apply digits1_consumes in E
           end;
    cbn [length] in *; lia.
Qed.

Lemma parse_scalar_consumes s v rest :
  parse_scalar s = Parsed v rest -> length rest < length s.
Proof.
  unfold parse_scalar. intros H.
  repeat (break_match_in H; try discriminate H);
    injection H as <- <-;
    repeat match goal with
           | E : strip_prefix _ _ = Some _ |- _ => apply strip_prefix_length in E
           | E : parse_number _ = Some _ |- _ => apply parse_number_consumes in E
           end;
    cbn [length lit map list_ascii_of_string] in *; lia.
Qed.

Lemma parse_scalar_decided s : parse_scalar s <> @Exhausted json.
Proof.
  unfold parse_scalar.
  repeat match goal with
         | |- context [match ?x with _ => _ end] => destruct x
         end; discriminate.
Qed.

(** Every successful parser leaves strictly less input than it was given. *)
Lemma parse_consumes fuel :
  (forall s v rest, parse_value fuel s = Parsed v rest ->
                    length rest < length s)
  /\ (forall s vs rest, parse_elements fuel s = Parsed vs rest ->
                        length rest < length s)
  /\ (forall s ms rest, parse_members fuel s = Parsed ms rest ->
                        length rest < length s).
Proof.
  induction fuel as [|fuel (IHv & IHe & IHm)].
  - repeat split; intros; discriminate.
  - repeat split; intros s ? rest H;
      cbn [parse_value parse_elements parse_members] in H;
      repeat (break_match_in H; try discriminate H);
      try (injection H as <- <-);
      repeat match goal with
             | E : skip_ws _ = _ |- _ => apply skip_ws_shorter in E
             | E : parse_chars _ = Some _ |- _ => apply parse_chars_consumes in E
             | E : parse_scalar _ = Parsed _ _ |- _ =>
                 apply parse_scalar_consumes in E
             | E : parse_value _ _ = Parsed _ _ |- _ => apply IHv in E
             | E : parse_elements _ _ = Parsed _ _ |- _ => apply IHe in E
             | E : parse_members _ _ = Parsed _ _ |- _ => apply IHm in E
             end;
      cbn [length] in *; lia.
Qed.

Lemma parse_value_consumes fuel s v rest :
  parse_value fuel s = Parsed v rest -> length rest < length s.
Proof. apply parse_consumes. Qed.

(** With twice the length of the input, and one more, [parse_value] never
    answers [Exhausted]: the [SyntaxError] of [JSON_parse] always stands
    for a text that is not JSON. *)
Lemma parse_fuel_enough fuel :
  (forall s, 2 * length s + 1 <= fuel -> parse_value fuel s <> Exhausted)
  /\ (forall s, 2 * length s + 2 <= fuel -> parse_elements fuel s <> Exhausted)
  /\ (forall s, 2 * length s + 2 <= fuel -> parse_members fuel s <> Exhausted).
Proof.
  induction fuel as [|fuel (IHv & IHe & IHm)].
  - repeat split; intros s L; lia.
  - repeat split; intros s L H;
      cbn [parse_value parse_elements parse_members] in H;
      repeat (break_match_in H; try discriminate H);
      repeat match goal with
             | E : skip_ws _ = _ |- _ => apply skip_ws_shorter in E
             | E : parse_chars _ = Some _ |- _ => apply parse_chars_consumes in E
             | E : parse_value _ _ = Parsed _ _ |- _ =>
                 apply parse_value_consumes in E
             end;
      cbn [length] in *;
      try (now apply parse_scalar_decided in H);
      match goal with
      | E : parse_value _ ?x = Exhausted |- _ => apply (IHv x); [lia|exact E]
      | E : parse_elements _ ?x = Exhausted |- _ => apply (IHe x); [|exact E]
      | E : parse_members _ ?x = Exhausted |- _ => apply (IHm x); [|exact E]
      end; cbn [length]; lia.
Qed.

Lemma JSON_parse_fuel_enough text :
  parse_value (json_fuel text) text <> Exhausted.
Proof. apply parse_fuel_enough. unfold json_fuel. lia. Qed.

(** ** Code fences *)

(** A fence marker at the very start is the leftmost match: it goes, with
    one white-space character after it when there is one. *)
Lemma fence_open_at_start rest :
  replace re_fence_open [] (lit "```json" ++ rest) =
  match rest with
  | c :: rest' => if is_white_space c then rest' else rest
  | [] => []
  end.
Proof.
  unfold replace. cbn [search].
  destruct rest as [|c rest]; [reflexivity|].
  cbn. destruct (is_white_space c); reflexivity.
Qed.

(** C1 (the code departs from the claim).  A marker at the start is
    stripped, as the claim says; but the opening pattern of
    [sanitizeJsonString] has no start anchor, so the first marker is
    deleted wherever it stands, with one white-space character after it,
    and the content changes: inside a JSON string the text after "see "
    loses the marker.  The plain variant of the service, whose pattern is
    anchored, leaves the same input alone, and the two variants return
    different objects for it. *)
Theorem fence_marker_inside_is_removed :
  (forall rest,
     replace re_fence_open [] (lit "```json" ++ rest) =
     match rest with
     | c :: rest' => if is_white_space c then rest' else rest
     | [] => []
     end)
  /\ sanitizeJsonString (lit "x```jsony") = lit "xy"
  /\ sanitizeJsonString (jq "{'content':'see ```json here'}")
     = jq "{'content':'see here'}"
  /\ GeminiService.jsonStr (jq "{'content':'see ```json here'}")
     = jq "{'content':'see ```json here'}"
  /\ analyzeSlideImage (Normal (Some (jq "{'content':'see ```json here'}")))
     = ([], Normal (JObject [(lit "content", JString (lit "see here"))]))
  /\ GeminiService.analyzeSlideImage
       (Normal (Some (jq "{'content':'see ```json here'}")))
     = ([], Normal (JObject [(lit "content",
                              JString (lit "see ```json here"))])).
Proof.
  split; [exact fence_open_at_start|].
  repeat split; vm_compute; reflexivity.
Qed.

(** ** The wrapper *)

(** C5. When the text of the response is absent or empty the result is
    the default [{backgroundColor: "#FFFFFF", elements: []}] and nothing
    is logged, whatever the cleaning step and the JSON parser are: neither
    is consulted.  This holds for both variants of the service. *)
Theorem empty_response_gives_default :
  default_result =
    JObject [(lit "backgroundColor", JString (lit "#FFFFFF"));
             (lit "elements", JArray [])]
  /\ (forall clean parse,
        analyzeSlideImage_with clean parse (Normal None)
        = ([], Normal default_result)
        /\ analyzeSlideImage_with clean parse (Normal (Some []))
           = ([], Normal default_result)
        /\ GeminiService.analyzeSlideImage_with clean parse (Normal None)
           = ([], Normal default_result)
        /\ GeminiService.analyzeSlideImage_with clean parse (Normal (Some []))
           = ([], Normal default_result))
  /\ analyzeSlideImage (Normal None) = ([], Normal default_result)
  /\ analyzeSlideImage (Normal (Some [])) = ([], Normal default_result)
  /\ GeminiService.analyzeSlideImage (Normal None)
     = ([], Normal default_result)
  /\ GeminiService.analyzeSlideImage (Normal (Some []))
     = ([], Normal default_result).
Proof.
  split; [reflexivity|].
  split; [intros clean parse; repeat split|].
  repeat split.
Qed.

(** C6. When the text is not empty and its sanitised form does not parse,
    the [SyntaxError] of [JSON.parse] reaches the caller: the handler logs
    the error, announces the retry, which does nothing, and throws the
    same error again; no result is returned.  The failure is one of
    syntax: the parser of the model has fuel left. *)
Theorem malformed_json_propagates :
  forall text,
    text <> [] ->
    JSON_parse (sanitizeJsonString text) = Throw SyntaxError ->
    analyzeSlideImage (Normal (Some text))
    = ([ConsoleError "Gemini Analysis Error:" SyntaxError;
        ConsoleWarn "Retrying with more aggressive cleaning..."],
       Throw SyntaxError)
    /\ parse_value (json_fuel (sanitizeJsonString text))
         (sanitizeJsonString text) <> Exhausted.
Proof.
  intros text Hne H. split; [|apply JSON_parse_fuel_enough].
  unfold analyzeSlideImage, analyzeSlideImage_with, try_block.
  destruct text as [|c t]; [congruence|].
  cbn [falsy text_of]. rewrite H. reflexivity.
Qed.

Lemma malformed_json_propagates_witness :
  analyzeSlideImage (Normal (Some (jq "{'backgroundColor': invalid}")))
  = ([ConsoleError "Gemini Analysis Error:" SyntaxError;
      ConsoleWarn "Retrying with more aggressive cleaning..."],
     Throw SyntaxError)
  /\ parse_value
       (json_fuel (sanitizeJsonString (jq "{'backgroundColor': invalid}")))
       (sanitizeJsonString (jq "{'backgroundColor': invalid}")) <> Exhausted.
Proof.
  apply malformed_json_propagates.
  - discriminate.
  - vm_compute. reflexivity.
Defined.

(** C7. The fenced input gives exactly
    [{backgroundColor: "#FFF", elements: []}]; the input with noise before
    and after the object gives an object whose [elements] is an array of
    one element, of type text and content hi. *)
Theorem documented_examples_parse :
  analyzeSlideImage
    (Normal (Some (lit "```json" ++ nl
                   ++ jq "{'backgroundColor':'#FFF','elements':[]}" ++ nl
                   ++ lit "```")))
  = ([], Normal (JObject [(lit "backgroundColor", JString (lit "#FFF"));
                          (lit "elements", JArray [])]))
  /\ exists result element,
       analyzeSlideImage
         (Normal (Some (jq "noise{'backgroundColor':'#000','elements':[{'type':'text','content':'hi','x':0,'y':0,'width':10,'height':5}]}trailing")))
       = ([], Normal result)
       /\ get (lit "backgroundColor") result = Some (JString (lit "#000"))
       /\ get (lit "elements") result = Some (JArray [element])
       /\ element =
          JObject [(lit "type", JString (lit "text"));
                   (lit "content", JString (lit "hi"));
                   (lit "x", JNumber (lit "0"));
                   (lit "y", JNumber (lit "0"));
                   (lit "width", JNumber (lit "10"));
                   (lit "height", JNumber (lit "5"))]
       /\ get (lit "type") element = Some (JString (lit "text"))
       /\ get (lit "content") element = Some (JString (lit "hi")).
Proof.
  split; [vm_compute; reflexivity|].
  eexists. eexists.
  split; [vm_compute; reflexivity|].
  repeat split.
Qed.

(** C8, as stated, fails on the response [{"elements":[]}]: it parses,
    its object has no [backgroundColor], and neither variant of the
    service adds one. *)
Lemma missing_background_counterexample :
  JSON_parse (sanitizeJsonString (jq "{'elements':[]}"))
  = Normal (JObject [(lit "elements", JArray [])])
  /\ get (lit "backgroundColor") (JObject [(lit "elements", JArray [])]) = None
  /\ ~ background_defaulted analyzeSlideImage (jq "{'elements':[]}")
  /\ ~ background_defaulted GeminiService.analyzeSlideImage
         (jq "{'elements':[]}").
Proof.
  split; [vm_compute; reflexivity|].
  split; [reflexivity|].
  split; intros (log & result & E & G); vm_compute in E;
    injection E as _ <-; discriminate G.
Qed.

(** C8, amended.  A non-empty response that parses is returned exactly as
    [JSON.parse] gives it, with no field filled in: when the parsed object
    has no [backgroundColor], the result has none either.  The default
    "#FFFFFF" appears only in the result for an empty or absent text. *)
Theorem parsed_result_is_returned_as_is :
  forall text v,
    text <> [] ->
    (JSON_parse (sanitizeJsonString text) = Normal v ->
     analyzeSlideImage (Normal (Some text)) = ([], Normal v)
     /\ (get (lit "backgroundColor") v = None ->
         ~ background_defaulted analyzeSlideImage text))
    /\ (JSON_parse (GeminiService.jsonStr text) = Normal v ->
        GeminiService.analyzeSlideImage (Normal (Some text)) = ([], Normal v)
        /\ (get (lit "backgroundColor") v = None ->
            ~ background_defaulted GeminiService.analyzeSlideImage text)).
Proof.
  intros text v Hne.
  destruct text as [|c t]; [congruence|].
  split; intros H.
  - assert (analyzeSlideImage (Normal (Some (c :: t))) = ([], Normal v)) as E.
    { unfold analyzeSlideImage, analyzeSlideImage_with, try_block.
      cbn [falsy text_of]. rewrite H. reflexivity. }
    split; [exact E|].
    intros G (log & result & E' & G').
    pose proof (eq_trans (eq_sym E) E') as K.
    injection K as _ <-. congruence.
  - assert (GeminiService.analyzeSlideImage (Normal (Some (c :: t)))
            = ([], Normal v)) as E.
    { unfold GeminiService.analyzeSlideImage,
        GeminiService.analyzeSlideImage_with, try_block.
      cbn [falsy text_of]. rewrite H. reflexivity. }
    split; [exact E|].
    intros G (log & result & E' & G').
    pose proof (eq_trans (eq_sym E) E') as K.
    injection K as _ <-. congruence.
Qed.

Lemma parsed_result_is_returned_as_is_witness :
  (analyzeSlideImage (Normal (Some (jq "{'elements':[]}")))
   = ([], Normal (JObject [(lit "elements", JArray [])]))
   /\ ~ background_defaulted analyzeSlideImage (jq "{'elements':[]}"))
  /\ (GeminiService.analyzeSlideImage (Normal (Some (jq "{'elements':[]}")))
      = ([], Normal (JObject [(lit "elements", JArray [])]))
      /\ ~ background_defaulted GeminiService.analyzeSlideImage
            (jq "{'elements':[]}")).
Proof.
  destruct (@parsed_result_is_returned_as_is (jq "{'elements':[]}")
              (JObject [(lit "elements", JArray [])]) ltac:(discriminate))
    as [Hs Hp].
  split.
  - destruct Hs as [E G]; [vm_compute; reflexivity|].
    split; [exact E|apply G; reflexivity].
  - destruct Hp as [E G]; [vm_compute; reflexivity|].
    split; [exact E|apply G; reflexivity].
Defined.

(** * Further properties of the code *)

(** ** The matcher consumes a prefix of its input *)

Lemma star_suffix p s :
  forall i k res,
    star p i s k = Some res ->
    exists a t, s = a ++ t /\ k (i + length a) t = Some res.
Proof.
  induction s as [|c s IH]; intros i k res H; cbn [star] in H.
  - exists [], []. now rewrite Nat.add_0_r.
  - destruct (p c).
    + destruct (star p (S i) s k) as [r|] eqn:E.
      * injection H as <-. apply IH in E. destruct E as (a & t & -> & E).
        exists (c :: a), t. split; [reflexivity|].
        cbn [length]. now rewrite Nat.add_succ_r.
      * exists [], (c :: s). now rewrite Nat.add_0_r.
    + exists [], (c :: s). now rewrite Nat.add_0_r.
Qed.

Lemma run_suffix r :
  forall i s k res,
    run r i s k = Some res ->
    exists a t, s = a ++ t /\ k (i + length a) t = Some res.
Proof.
  induction r as [c|p|r1 IH1 r2 IH2|r1 IH1|p|n r1 IH1| | |r1 IH1];
    intros i s k res H.
  - cbn [run] in H. destruct s as [|x s]; [discriminate|].
    destruct (x =? c)%N; [|discriminate].
    exists [x], s. split; [reflexivity|]. cbn [length].
    now rewrite Nat.add_1_r.
  - cbn [run] in H. destruct s as [|x s]; [discriminate|].
    destruct (p x); [|discriminate].
    exists [x], s. split; [reflexivity|]. cbn [length].
    now rewrite Nat.add_1_r.
  - cbn [run] in H. apply IH1 in H. destruct H as (a1 & t1 & -> & H).
    apply IH2 in H. destruct H as (a2 & t2 & -> & H).
    exists (a1 ++ a2), t2. split; [now rewrite app_assoc|].
    now rewrite length_app, Nat.add_assoc.
  - cbn [run] in H. destruct (run r1 i s k) as [r|] eqn:E.
    + injection H as <-. now apply IH1 in E.
    + exists [], s. now rewrite Nat.add_0_r.
  - exact (@star_suffix p s i k res H).
  - revert i s k res H. induction n as [|n IHn]; intros i s k res H.
    + exists [], s. now rewrite Nat.add_0_r.
    + change (run r1 i s (fun j t => run (Times n r1) j t k) = Some res) in H.
      apply IH1 in H. destruct H as (a1 & t1 & -> & H).
      apply IHn in H. destruct H as (a2 & t2 & -> & H).
      exists (a1 ++ a2), t2. split; [now rewrite app_assoc|].
      now rewrite length_app, Nat.add_assoc.
  - cbn [run] in H. destruct (Nat.eqb i 0); [|discriminate].
    exists [], s. now rewrite Nat.add_0_r.
  - cbn [run] in H. destruct s; [|discriminate].
    exists [], []. now rewrite Nat.add_0_r.
  - cbn [run] in H. destruct (run r1 i s accept); [discriminate|].
    exists [], s. now rewrite Nat.add_0_r.
Qed.

Lemma exec_at_suffix r i s rest :
  exec_at r i s = Some rest -> exists a, s = a ++ rest.
Proof.
  intros H. apply run_suffix in H. destruct H as (a & t & -> & H).
  injection H as <-. now exists a.
Qed.

(** ** The leftmost match *)

Lemma search_some r s :
  forall i j rest,
    search r i s = Some (j, rest) ->
    exists a b, s = a ++ b /\ j = i + length a /\ exec_at r j b = Some rest.
Proof.
  induction s as [|c s IH]; intros i j rest H; cbn [search] in H.
  - destruct (exec_at r i []) eqn:E; [|discriminate].
    injection H as <- <-. exists [], []. now rewrite Nat.add_0_r.
  - destruct (exec_at r i (c :: s)) eqn:E.
    + injection H as <- <-. exists [], (c :: s). now rewrite Nat.add_0_r.
    + apply IH in H. destruct H as (a & b & -> & -> & H).
      exists (c :: a), b. cbn [length]. rewrite Nat.add_succ_r.
      repeat split. exact H.
Qed.

Lemma search_skip r pre s :
  forall i,
    (forall a b, pre = a ++ b -> b <> [] ->
                 exec_at r (i + length a) (b ++ s) = None) ->
    search r i (pre ++ s) = search r (i + length pre) s.
Proof.
  induction pre as [|c pre IH]; intros i H.
  - cbn. now rewrite Nat.add_0_r.
  - cbn [app]. 
    assert (exec_at r i (c :: pre ++ s) = None) as E.
    { specialize (H [] (c :: pre) eq_refl ltac:(discriminate)).
      cbn in H. now rewrite Nat.add_0_r in H. }
    cbn [search]. rewrite E. rewrite IH.
    + cbn [length]. now rewrite Nat.add_succ_r.
    + intros a b -> Hb. specialize (H (c :: a) b eq_refl Hb).
      cbn [length] in H. now rewrite Nat.add_succ_r in H.
Qed.

Lemma search_none r s :
  forall i,
    (forall a b, s = a ++ b -> exec_at r (i + length a) b = None) ->
    search r i s = None.
Proof.
  induction s as [|c s IH]; intros i H; cbn [search].
  - specialize (H [] [] eq_refl). cbn in H. rewrite Nat.add_0_r in H.
    now rewrite H.
  - pose proof (H [] (c :: s) eq_refl) as E. cbn in E.
    rewrite Nat.add_0_r in E. rewrite E. apply IH.
    intros a b ->. specialize (H (c :: a) b eq_refl).
    cbn [length] in H. now rewrite Nat.add_succ_r in H.
Qed.

Lemma search_hit r i s rest :
  exec_at r i s = Some rest -> search r i s = Some (i, rest).
Proof. intros H. destruct s; cbn [search]; now rewrite H. Qed.

Lemma replace_found r by_ a s rest :
  search r 0 (a ++ s) = Some (length a, rest) ->
  replace r by_ (a ++ s) = a ++ by_ ++ rest.
Proof.
  intros H. unfold replace. rewrite H.
  rewrite firstn_app, Nat.sub_diag, firstn_all. cbn. now rewrite app_nil_r.
Qed.

Lemma replace_not_found r by_ s :
  search r 0 s = None -> replace r by_ s = s.
Proof. intros H. unfold replace. now rewrite H. Qed.

(** ** Literal words *)

Lemma strip_prefix_app w t : strip_prefix w (w ++ t) = Some t.
Proof.
  induction w as [|c w IH]; cbn; [reflexivity|].
  now rewrite N.eqb_refl.
Qed.

Lemma strip_prefix_some w :
  forall s t, strip_prefix w s = Some t -> s = w ++ t.
Proof.
  induction w as [|c w IH]; intros s t H; cbn in H.
  - now injection H as <-.
  - destruct s as [|x s]; [discriminate|].
    destruct (N.eqb_spec x c) as [->|]; [|discriminate].
    apply IH in H. now subst.
Qed.

Lemma run_word w r :
  forall i s k,
    run (word w r) i s k =
    match strip_prefix w s with
    | Some t => run r (i + length w) t k
    | None => None
    end.
Proof.
  induction w as [|c w IH]; intros i s k; cbn [word strip_prefix length].
  - now rewrite Nat.add_0_r.
  - cbn [run]. destruct s as [|x s]; [reflexivity|].
    destruct (x =? c)%N; [|reflexivity].
    rewrite IH. now rewrite Nat.add_succ_r.
Qed.

(** ** The fence patterns of [sanitizeJsonString] *)

Lemma exec_fence_open i s :
  exec_at re_fence_open i s =
  match strip_prefix (lit "```json") s with
  | Some t => Some (drop_one_space t)
  | None => None
  end.
Proof.
  unfold exec_at, re_fence_open. rewrite run_word.
  destruct (strip_prefix (lit "```json") s) as [t|]; [|reflexivity].
  destruct t as [|c t]; cbn; [reflexivity|].
  destruct (is_white_space c); reflexivity.
Qed.

Lemma exec_fence_close i s :
  exec_at re_fence_close i s =
  match strip_prefix (lit "```") s with
  | Some [] => Some []
  | Some [c] => if is_white_space c then Some [] else None
  | _ => None
  end.
Proof.
  unfold exec_at, re_fence_close. rewrite run_word.
  destruct (strip_prefix (lit "```") s) as [t|]; [|reflexivity].
  destruct t as [|c [|d t]]; cbn; try reflexivity;
    destruct (is_white_space c); reflexivity.
Qed.

Lemma exec_fence_close_some i s rest :
  exec_at re_fence_close i s = Some rest ->
  rest = [] /\ exists w, blank1 w /\ s = lit "```" ++ w.
Proof.
  rewrite exec_fence_close.
  destruct (strip_prefix (lit "```") s) as [t|] eqn:E; [|discriminate].
  apply strip_prefix_some in E. subst s.
  destruct t as [|c [|d t]]; try discriminate.
  - intros H. injection H as <-. split; [reflexivity|].
    exists []. split; [now left|reflexivity].
  - destruct (is_white_space c) eqn:W; [|discriminate].
    intros H. injection H as <-. split; [reflexivity|].
    exists [c]. split; [right; now exists c|reflexivity].
Qed.

Lemma exec_fence_close_hit i w :
  blank1 w -> exec_at re_fence_close i (lit "```" ++ w) = Some [].
Proof.
  intros [->|(c & W & ->)]; rewrite exec_fence_close, strip_prefix_app.
  - reflexivity.
  - now rewrite W.
Qed.

Lemma fence_close_trailing p w :
  blank1 w -> replace re_fence_close [] (p ++ lit "```" ++ w) = p.
Proof.
  intros W.
  rewrite (@replace_found _ _ p (lit "```" ++ w) []).
  - cbn. now rewrite app_nil_r.
  - rewrite search_skip.
    + apply search_hit. now apply exec_fence_close_hit.
    + intros a b -> Hb.
      destruct (exec_at re_fence_close (0 + length a) (b ++ lit "```" ++ w))
        as [rest|] eqn:E; [exfalso|reflexivity].
      apply exec_fence_close_some in E.
      destruct E as (_ & w' & W' & E).
      apply (f_equal (@length char)) in E as L.
      rewrite !length_app in L.
      destruct b as [|x b]; [congruence|].
      destruct W as [->|(c & Wc & ->)], W' as [->|(c' & Wc' & ->)];
        cbn [length] in L; try lia.
      destruct b; [|cbn [length] in L; lia].
      cbn in E. injection E as -> E. subst c'. discriminate Wc'.
Qed.

Lemma fence_close_absent s :
  (forall p w, blank1 w -> s <> p ++ lit "```" ++ w) ->
  replace re_fence_close [] s = s.
Proof.
  intros H. apply replace_not_found, search_none.
  intros a b ->.
  destruct (exec_at re_fence_close (0 + length a) b) as [rest|] eqn:E;
    [exfalso|reflexivity].
  apply exec_fence_close_some in E. destruct E as (_ & w & W & ->).
  now apply (H a w).
Qed.

Lemma fence_open_first pre post :
  (forall a b, pre ++ lit "```json" ++ post = a ++ lit "```json" ++ b ->
               length pre <= length a) ->
  replace re_fence_open [] (pre ++ lit "```json" ++ post)
  = pre ++ drop_one_space post.
Proof.
  intros H.
  rewrite (@replace_found _ _ pre _ (drop_one_space post)); [reflexivity|].
  rewrite search_skip.
  - apply search_hit. now rewrite exec_fence_open, strip_prefix_app.
  - intros a b -> Hb. rewrite exec_fence_open.
    destruct (strip_prefix (lit "```json") (b ++ lit "```json" ++ post))
      as [t|] eqn:E; [exfalso|reflexivity].
    apply strip_prefix_some in E.
    specialize (H a t). rewrite <- app_assoc, E in H.
    specialize (H eq_refl). rewrite length_app in H.
    destruct b; [congruence|cbn [length] in H; lia].
Qed.

Lemma fence_open_absent s :
  (forall a b, s <> a ++ lit "```json" ++ b) ->
  replace re_fence_open [] s = s.
Proof.
  intros H. apply replace_not_found, search_none.
  intros a b ->. rewrite exec_fence_open.
  destruct (strip_prefix (lit "```json") b) as [t|] eqn:E; [|reflexivity].
  apply strip_prefix_some in E. subst b. now destruct (H a t).
Qed.

(** ** White space at the ends *)

Lemma drop_while_split p s :
  exists a, s = a ++ drop_while p s /\ Forall (fun c => p c = true) a.
Proof.
  induction s as [|c s (a & E & F)]; cbn [drop_while].
  - now exists [].
  - destruct (p c) eqn:P.
    + exists (c :: a). split; [cbn; now f_equal|now constructor].
    + now exists [].
Qed.

Lemma drop_while_head p s :
  match drop_while p s with
  | c :: _ => p c = false
  | [] => True
  end.
Proof.
  induction s as [|c s IH]; cbn [drop_while]; [exact I|].
  destruct (p c) eqn:P; [exact IH|exact P].
Qed.

Lemma drop_while_fixed p s :
  match s with c :: _ => p c = false | [] => True end ->
  drop_while p s = s.
Proof. destruct s as [|c s]; cbn; [reflexivity|]. now intros ->. Qed.

Lemma drop_while_idem p s : drop_while p (drop_while p s) = drop_while p s.
Proof. apply drop_while_fixed, drop_while_head. Qed.

Lemma drop_while_all p w t :
  Forall (fun c => p c = true) w -> drop_while p (w ++ t) = drop_while p t.
Proof.
  induction 1 as [|c w P _ IH]; cbn [app drop_while]; [reflexivity|].
  now rewrite P.
Qed.

Lemma drop_while_app p s t :
  drop_while p s <> [] -> drop_while p (s ++ t) = drop_while p s ++ t.
Proof.
  induction s as [|c s IH]; cbn [app drop_while]; [congruence|].
  destruct (p c); [exact IH|reflexivity].
Qed.

Lemma drop_while_blank p w :
  Forall (fun c => p c = true) w -> drop_while p w = [].
Proof.
  intros F. rewrite <- (app_nil_r w). now rewrite drop_while_all.
Qed.

Lemma trim_leading c t : is_white_space c = true -> trim (c :: t) = trim t.
Proof. intros W. unfold trim. cbn [drop_while]. now rewrite W. Qed.

Lemma trim_drop_one_space t : trim (drop_one_space t) = trim t.
Proof.
  destruct t as [|c t]; cbn [drop_one_space]; [reflexivity|].
  destruct (is_white_space c) eqn:W; [|reflexivity].
  symmetry. now apply trim_leading.
Qed.

(** The head of a non-empty prefix is the head of the whole. *)
Lemma prefix_head (u v a : jsstring) :
  u = v ++ a ->
  match v with
  | c :: _ => match u with c' :: _ => c' = c | [] => False end
  | [] => True
  end.
Proof. intros ->. destruct v as [|c v]; [exact I|reflexivity]. Qed.

Lemma trim_starts_black s :
  drop_while is_white_space (trim s) = trim s.
Proof.
  unfold trim. set (u := drop_while is_white_space s).
  destruct (drop_while_split is_white_space (rev u)) as (a & E & _).
  set (v := drop_while is_white_space (rev u)) in *.
  apply (f_equal (@rev char)) in E. rewrite rev_involutive, rev_app_distr in E.
  apply drop_while_fixed.
  pose proof (prefix_head _ _ E) as Hd.
  pose proof (drop_while_head is_white_space s) as Hu. fold u in Hu.
  destruct (rev v) as [|c r]; [exact I|].
  destruct u as [|c' u']; [contradiction|]. now subst c'.
Qed.

Lemma trim_idem s : trim (trim s) = trim s.
Proof.
  unfold trim at 1. rewrite trim_starts_black.
  unfold trim. rewrite rev_involutive, drop_while_idem. reflexivity.
Qed.

Lemma trim_blank w : blank w -> trim w = [].
Proof.
  intros F. unfold trim.
  now rewrite (@drop_while_blank is_white_space w F).
Qed.

Lemma is_white_space_backtick : is_white_space 96%N = false.
Proof. reflexivity. Qed.

Lemma drop_one_space_fenced t rest :
  drop_one_space (t ++ lit "```" ++ rest) = drop_one_space t ++ lit "```" ++ rest.
Proof. destruct t as [|c t]; [reflexivity|]. cbn. now destruct (is_white_space c). Qed.

Lemma stripFences_fenced t w :
  blank1 w ->
  stripFences (lit "```json" ++ t ++ lit "```" ++ w) = drop_one_space t.
Proof.
  intros W. unfold stripFences.
  pose proof (@fence_open_first [] (t ++ lit "```" ++ w)) as E.
  change ([] ++ lit "```json" ++ t ++ lit "```" ++ w)
    with (lit "```json" ++ t ++ lit "```" ++ w) in E.
  rewrite E.
  - change ([] ++ drop_one_space (t ++ lit "```" ++ w))
      with (drop_one_space (t ++ lit "```" ++ w)).
    rewrite drop_one_space_fenced.
    now apply fence_close_trailing.
  - intros a b _. cbn. lia.
Qed.

(** ** The fence patterns of the plain variant *)

Lemma star_accept p s : forall i, star p i s accept = Some (drop_while p s).
Proof.
  induction s as [|c s IH]; intros i; cbn [star drop_while]; [reflexivity|].
  destruct (p c); [now rewrite IH|reflexivity].
Qed.

(** When the continuation refuses every input that starts with a character
    of the class, the star keeps all the characters it can take. *)
Lemma star_commit p (k : cont) s :
  (forall j c t, p c = true -> k j (c :: t) = None) ->
  forall i, exists j, star p i s k = k j (drop_while p s).
Proof.
  intros K. induction s as [|c s IH]; intros i; cbn [star drop_while].
  - now exists i.
  - destruct (p c) eqn:P; [|now exists i].
    destruct (IH (S i)) as [j E]. rewrite E.
    destruct (k j (drop_while p s)) eqn:R; [now exists j|].
    exists j. rewrite R. now apply K.
Qed.

Lemma exec_plain_open i s :
  exec_at GeminiService.re_fence_open i s =
  if Nat.eqb i 0 then
    match strip_prefix (lit "```json") s with
    | Some t => Some (drop_while is_white_space t)
    | None => None
    end
  else None.
Proof.
  unfold exec_at, GeminiService.re_fence_open. cbn [run].
  destruct (Nat.eqb i 0); [|reflexivity].
  rewrite run_word.
  destruct (strip_prefix (lit "```json") s); [|reflexivity].
  cbn [run]. apply star_accept.
Qed.

Lemma search_plain_open_later s :
  forall i, search GeminiService.re_fence_open (S i) s = None.
Proof.
  induction s as [|c s IH]; intros i; cbn [search];
    rewrite exec_plain_open; cbn [Nat.eqb]; [reflexivity|apply IH].
Qed.

Lemma plain_open s :
  replace GeminiService.re_fence_open [] s =
  match strip_prefix (lit "```json") s with
  | Some t => drop_while is_white_space t
  | None => s
  end.
Proof.
  unfold replace.
  destruct s as [|c s]; cbn [search]; rewrite exec_plain_open; cbn [Nat.eqb].
  - reflexivity.
  - destruct (strip_prefix (lit "```json") (c :: s)); [reflexivity|].
    now rewrite search_plain_open_later.
Qed.

Lemma exec_plain_close i s :
  exec_at GeminiService.re_fence_close i s =
  match strip_prefix (lit "```") (drop_while is_white_space s) with
  | Some [] => Some []
  | _ => None
  end.
Proof.
  unfold exec_at, GeminiService.re_fence_close. cbn [run].
  destruct (@star_commit is_white_space
              (fun j t => run (word (lit "```") Eos) j t accept) s) with (i := i)
    as [j ->].
  - intros j c t W. cbn. destruct (N.eqb_spec c 96) as [->|]; [|reflexivity].
    discriminate W.
  - rewrite run_word.
    destruct (strip_prefix (lit "```") (drop_while is_white_space s)) as [t|];
      [|reflexivity].
    destruct t; reflexivity.
Qed.

Lemma exec_plain_close_some i s rest :
  exec_at GeminiService.re_fence_close i s = Some rest ->
  rest = [] /\ drop_while is_white_space s = lit "```".
Proof.
  rewrite exec_plain_close.
  destruct (strip_prefix (lit "```") (drop_while is_white_space s)) as [t|] eqn:E;
    [|discriminate].
  destruct t; [|discriminate]. intros H. injection H as <-.
  apply strip_prefix_some in E. now rewrite E.
Qed.

Lemma blank_no_black (b : jsstring) :
  drop_while is_white_space b = [] -> blank b.
Proof.
  intros E. destruct (drop_while_split is_white_space b) as (a & Ea & F).
  rewrite E, app_nil_r in Ea. now subst a.
Qed.

(** The end of a text without its trailing white space. *)
Lemma trailing_space_split (p : jsstring) :
  exists w, p = rev (drop_while is_white_space (rev p)) ++ w /\ blank w.
Proof.
  destruct (drop_while_split is_white_space (rev p)) as (a & E & F).
  exists (rev a). split.
  - apply (f_equal (@rev char)) in E.
    now rewrite rev_involutive, rev_app_distr in E.
  - now apply Forall_rev.
Qed.

Lemma plain_close_trailing p :
  replace GeminiService.re_fence_close [] (p ++ lit "```")
  = rev (drop_while is_white_space (rev p)).
Proof.
  destruct (trailing_space_split p) as (w & E & W).
  set (q := rev (drop_while is_white_space (rev p))) in *.
  assert (Hq : match rev q with
               | c :: _ => is_white_space c = false
               | [] => True
               end).
  { unfold q. rewrite rev_involutive. apply drop_while_head. }
  rewrite E, <- app_assoc.
  rewrite (@replace_found _ _ q (w ++ lit "```") []).
  { cbn. now rewrite app_nil_r. }
  rewrite search_skip.
  - apply search_hit. rewrite exec_plain_close.
    rewrite (@drop_while_all is_white_space w _ W). reflexivity.
  - intros a b Eq Hb.
    destruct (exec_at GeminiService.re_fence_close (0 + length a)
                (b ++ w ++ lit "```")) as [rest|] eqn:X; [exfalso|reflexivity].
    apply exec_plain_close_some in X. destruct X as [_ X].
    assert (drop_while is_white_space b <> []) as Nb.
    { intros Z. apply blank_no_black in Z.
      rewrite Eq, rev_app_distr in Hq.
      apply Forall_rev in Z.
      destruct (rev b) as [|c r] eqn:R.
      - apply (f_equal (@rev char)) in R. rewrite rev_involutive in R.
        now subst b.
      - cbn in Hq. inversion Z as [|? ? Wc _]. congruence. }
    rewrite drop_while_app in X by exact Nb.
    apply (f_equal (@length char)) in X. rewrite !length_app in X.
    destruct (drop_while is_white_space b); [congruence|].
    cbn in X. lia.
Qed.

Lemma plain_close_absent s :
  (forall a, s <> a ++ lit "```") ->
  replace GeminiService.re_fence_close [] s = s.
Proof.
  intros H. apply replace_not_found, search_none.
  intros a b ->.
  destruct (exec_at GeminiService.re_fence_close (0 + length a) b)
    as [rest|] eqn:X; [exfalso|reflexivity].
  apply exec_plain_close_some in X. destruct X as [_ X].
  destruct (drop_while_split is_white_space b) as (a' & E & _).
  rewrite X in E. apply (H (a ++ a')). rewrite E. now rewrite app_assoc.
Qed.

(** ** Deleting characters *)

Lemma Subseq_refl s : Subseq s s.
Proof. induction s; now constructor. Qed.

Lemma Subseq_trans a b c : Subseq a b -> Subseq b c -> Subseq a c.
Proof.
  intros H1 H2. revert a H1.
  induction H2 as [|x b c _ IH|x b c _ IH]; intros a H1.
  - exact H1.
  - inversion H1; subst.
    + constructor. now apply IH.
    + apply Subseq_drop. now apply IH.
  - apply Subseq_drop. now apply IH.
Qed.

Lemma Subseq_nil_l s : Subseq [] s.
Proof. induction s; now constructor. Qed.

Lemma Subseq_app a b c d : Subseq a b -> Subseq c d -> Subseq (a ++ c) (b ++ d).
Proof. induction 1; intros Hcd; cbn [app]; try constructor; auto. Qed.

Lemma Subseq_suffix p s : Subseq s (p ++ s).
Proof.
  change s with ([] ++ s) at 1.
  apply Subseq_app; [apply Subseq_nil_l|apply Subseq_refl].
Qed.

Lemma Subseq_prefix p s : Subseq p (p ++ s).
Proof.
  rewrite <- (app_nil_r p) at 1.
  apply Subseq_app; [apply Subseq_refl|apply Subseq_nil_l].
Qed.

Lemma Subseq_rev a b : Subseq a b -> Subseq (rev a) (rev b).
Proof.
  induction 1 as [|c a b _ IH|c a b _ IH]; cbn [rev].
  - constructor.
  - apply Subseq_app; [exact IH|apply Subseq_refl].
  - rewrite <- (app_nil_r (rev a)).
    apply Subseq_app; [exact IH|apply Subseq_nil_l].
Qed.

Lemma Subseq_length a b : Subseq a b -> length a <= length b.
Proof. induction 1; cbn [length]; lia. Qed.

Lemma Subseq_In a b c : Subseq a b -> In c a -> In c b.
Proof.
  induction 1 as [|x a b _ IH|x a b _ IH]; cbn [In]; intuition.
Qed.

Lemma Subseq_filter f (s : jsstring) : Subseq (filter f s) s.
Proof.
  induction s as [|c s IH]; cbn [filter]; [constructor|].
  destruct (f c); now constructor.
Qed.

Lemma Subseq_drop_while p s : Subseq (drop_while p s) s.
Proof.
  destruct (drop_while_split p s) as (a & E & _).
  rewrite E at 2. apply Subseq_suffix.
Qed.

Lemma Subseq_trim s : Subseq (trim s) s.
Proof.
  unfold trim. rewrite <- (rev_involutive s) at 2.
  apply Subseq_rev.
  eapply Subseq_trans; [apply Subseq_drop_while|].
  apply Subseq_rev, Subseq_drop_while.
Qed.

Lemma Subseq_firstn n (s : jsstring) : Subseq (firstn n s) s.
Proof.
  pose proof (Subseq_prefix (firstn n s) (skipn n s)) as H.
  now rewrite firstn_skipn in H.
Qed.

Lemma Subseq_skipn n (s : jsstring) : Subseq (skipn n s) s.
Proof.
  pose proof (Subseq_suffix (firstn n s) (skipn n s)) as H.
  now rewrite firstn_skipn in H.
Qed.

Lemma Subseq_substring s a b : Subseq (substring s a b) s.
Proof.
  unfold substring.
  eapply Subseq_trans; [apply Subseq_firstn|apply Subseq_skipn].
Qed.

Lemma Subseq_jsonBounds s : Subseq (jsonBounds s) s.
Proof.
  unfold jsonBounds.
  destruct (_ && _); [apply Subseq_substring|apply Subseq_refl].
Qed.

Lemma Subseq_replace_empty r s : Subseq (replace r [] s) s.
Proof.
  unfold replace. destruct (search r 0 s) as [[j rest]|] eqn:E;
    [|apply Subseq_refl].
  apply search_some in E. destruct E as (a & b & -> & -> & E).
  apply exec_at_suffix in E. destruct E as [m ->].
  cbn [Nat.add app]. rewrite firstn_app, Nat.sub_diag, firstn_all.
  cbn [firstn]. rewrite app_nil_r.
  apply Subseq_app; [apply Subseq_refl|apply Subseq_suffix].
Qed.

Lemma Subseq_repair s : Subseq (repair s) s.
Proof.
  induction s as [|c s IH]; [constructor|].
  cbn [repair]. destruct (bad_escape (c :: s)); now constructor.
Qed.

(** ** The shape of a text with both braces *)

Lemma first_occurrence (c : char) s :
  In c s -> exists pre post, s = pre ++ c :: post /\ ~ In c pre.
Proof.
  induction s as [|x s IH]; intros H; [contradiction|].
  destruct (N.eq_dec x c) as [->|N].
  - exists [], s. split; [reflexivity|intros []].
  - destruct H as [H|H]; [contradiction|].
    destruct (IH H) as (pre & post & -> & Hp).
    exists (x :: pre), post. split; [reflexivity|].
    intros [K|K]; [contradiction|now apply Hp].
Qed.

Lemma last_occurrence (c : char) s :
  In c s -> exists pre post, s = pre ++ c :: post /\ ~ In c post.
Proof.
  intros H. apply in_rev in H. apply first_occurrence in H.
  destruct H as (pre & post & E & Hp).
  exists (rev post), (rev pre). split.
  - apply (f_equal (@rev char)) in E.
    rewrite rev_involutive, rev_app_distr in E. cbn [rev] in E.
    now rewrite <- app_assoc in E.
  - now rewrite <- in_rev.
Qed.

Lemma brace_shape s :
  In lbrace s -> In rbrace s ->
  (exists pre mid post,
     s = pre ++ lbrace :: mid ++ rbrace :: post
     /\ ~ In lbrace pre /\ ~ In rbrace post)
  \/ (exists pre mid post,
        s = pre ++ rbrace :: mid ++ lbrace :: post
        /\ ~ In lbrace pre /\ ~ In lbrace mid
        /\ ~ In rbrace mid /\ ~ In rbrace post).
Proof.
  intros Hl Hr.
  apply first_occurrence in Hl. destruct Hl as (p1 & q1 & E1 & N1).
  apply last_occurrence in Hr. destruct Hr as (p2 & q2 & E2 & N2).
  rewrite E1 in E2. apply app_eq_app in E2.
  destruct E2 as (l & [[-> E]|[-> E]]).
  - destruct l as [|x l]; [discriminate E|].
    injection E as <- ->. right. exists p2, l, q1.
    rewrite E1, <- app_assoc. repeat split; try reflexivity.
    + intros K. apply N1. apply in_or_app. now left.
    + intros K. apply N1. apply in_or_app. right. now right.
    + intros K. apply N2. apply in_or_app. now left.
    + intros K. apply N2. apply in_or_app. right. now right.
  - destruct l as [|x l]; [discriminate E|].
    injection E as <- ->. left. exists p1, l, q2.
    rewrite E1. repeat split; assumption.
Qed.

(** ** Texts the later steps leave alone *)

Lemma stripControl_clean s :
  Forall (fun c => ~ removed c) s -> stripControl s = s.
Proof.
  intros F. rewrite stripControl_filter.
  induction F as [|c s Hc _ IH]; [reflexivity|].
  cbn [filter]. apply is_control_kept in Hc. rewrite Hc. cbn [negb].
  now f_equal.
Qed.

Lemma escapes_valid_tail c s : escapes_valid (c :: s) -> escapes_valid s.
Proof. intros H pre post ->. now apply (H (c :: pre) post). Qed.

Lemma fixUnicodeEscapes_valid s :
  escapes_valid s -> fixUnicodeEscapes s = s.
Proof.
  intros H. rewrite fixUnicodeEscapes_repair.
  induction s as [|c s IH]; [reflexivity|].
  cbn [repair]. destruct (bad_escape (c :: s)) eqn:E.
  - exfalso. destruct s as [|b t]; [discriminate|].
    cbn [bad_escape] in E.
    apply andb_true_iff in E. destruct E as [E E3].
    apply andb_true_iff in E. destruct E as [E1 E2].
    apply N.eqb_eq in E1, E2. subst.
    rewrite (H [] t eq_refl) in E3. discriminate.
  - f_equal. apply IH. now apply escapes_valid_tail in H.
Qed.

Lemma later_steps_clean s :
  clean s -> stripControl (fixUnicodeEscapes s) = s.
Proof.
  intros [F V]. rewrite fixUnicodeEscapes_valid by exact V.
  now apply stripControl_clean.
Qed.

Lemma trim_padded w1 w2 x :
  blank w1 -> blank w2 ->
  drop_while is_white_space x = x ->
  drop_while is_white_space (rev x) = rev x ->
  trim (w1 ++ x ++ w2) = x.
Proof.
  intros W1 W2 Hx Hr. unfold trim.
  rewrite (@drop_while_all is_white_space w1 _ W1).
  destruct x as [|c x].
  - cbn [app]. rewrite (@drop_while_blank is_white_space w2 W2). reflexivity.
  - rewrite drop_while_app by (rewrite Hx; discriminate).
    rewrite Hx, rev_app_distr.
    rewrite (@drop_while_all is_white_space (rev w2) _ (Forall_rev W2)).
    rewrite Hr. apply rev_involutive.
Qed.

Lemma object_trimmed mid :
  drop_while is_white_space (lbrace :: mid ++ [rbrace])
  = lbrace :: mid ++ [rbrace]
  /\ drop_while is_white_space (rev (lbrace :: mid ++ [rbrace]))
     = rev (lbrace :: mid ++ [rbrace]).
Proof.
  split; [reflexivity|].
  cbn [rev]. rewrite rev_app_distr. reflexivity.
Qed.

Lemma blank_no_backtick w : blank w -> ~ In 96%N w.
Proof.
  intros F K. unfold blank in F. rewrite Forall_forall in F.
  apply F in K. discriminate K.
Qed.

Lemma backtick_in_fence a b : In 96%N (a ++ lit "```" ++ b).
Proof. apply in_or_app. right. now left. Qed.

Lemma stripFences_no_backtick s : ~ In 96%N s -> stripFences s = s.
Proof.
  intros N. unfold stripFences.
  rewrite fence_open_absent.
  - apply fence_close_absent. intros p w _ ->. apply N, backtick_in_fence.
  - intros a b ->. apply N. apply in_or_app. right. now left.
Qed.

(** ** Splitting at commas *)

Lemma split_no_sep sep s : ~ In sep s -> split sep s = [s].
Proof.
  induction s as [|c s IH]; intros N; [reflexivity|].
  cbn [split]. destruct (N.eqb_spec c sep) as [->|_].
  - exfalso. apply N. now left.
  - rewrite IH by (intros K; apply N; now right). reflexivity.
Qed.

Lemma split_at_first sep h t :
  ~ In sep h -> split sep (h ++ sep :: t) = h :: split sep t.
Proof.
  induction h as [|c h IH]; intros N.
  - cbn. now rewrite N.eqb_refl.
  - cbn [app split]. destruct (N.eqb_spec c sep) as [->|_].
    + exfalso. apply N. now left.
    + rewrite IH by (intros K; apply N; now right). reflexivity.
Qed.

Lemma split_not_nil sep s : split sep s <> [].
Proof.
  destruct s as [|c s]; cbn [split]; [discriminate|].
  destruct (c =? sep)%N; [discriminate|].
  destruct (split sep s); discriminate.
Qed.

Lemma join_split sep s : join sep (split sep s) = s.
Proof.
  induction s as [|c s IH]; [reflexivity|].
  cbn [split]. destruct (N.eqb_spec c sep) as [->|_].
  - pose proof (@split_not_nil sep s) as N.
    destruct (split sep s) as [|p more] eqn:E; [congruence|].
    cbn [join app]. cbn [join] in IH. now rewrite IH.
  - pose proof (@split_not_nil sep s) as N.
    destruct (split sep s) as [|p more] eqn:E; [congruence|].
    destruct more as [|p' more]; cbn [join] in *; cbn [app]; now rewrite IH.
Qed.

(** ** The wrapper on a non-empty text *)

Lemma analyze_nonempty text :
  text <> [] ->
  analyzeSlideImage (Normal (Some text)) =
  match JSON_parse (sanitizeJsonString text) with
  | Normal v => ([], Normal v)
  | Throw e => catch_block e
  end.
Proof. destruct text; [congruence|reflexivity]. Qed.

Lemma plain_analyze_nonempty text :
  text <> [] ->
  GeminiService.analyzeSlideImage (Normal (Some text)) =
  match JSON_parse (GeminiService.jsonStr text) with
  | Normal v => ([], Normal v)
  | Throw e => GeminiService.catch_block e
  end.
Proof. destruct text; [congruence|reflexivity]. Qed.

Lemma object_not_fence_ended mid p w :
  blank1 w -> lbrace :: mid ++ [rbrace] <> p ++ lit "```" ++ w.
Proof.
  intros W E. apply (f_equal (@rev char)) in E.
  cbn [rev] in E. rewrite !rev_app_distr in E. cbn [rev app] in E.
  destruct W as [->|(c & Wc & ->)]; cbn in E.
  - discriminate E.
  - injection E as <- _. discriminate Wc.
Qed.

Lemma clean_without_backslash s :
  forallb (fun c => negb (is_control c) && negb (c =? backslash)%N) s = true ->
  clean s.
Proof.
  intros H. rewrite forallb_forall in H. split.
  - apply Forall_forall. intros c K. apply H in K.
    apply andb_true_iff in K. destruct K as [K _].
    apply negb_true_iff in K. now apply is_control_kept.
  - intros pre post ->.
    specialize (H backslash (in_elt backslash pre (letter_u :: post))).
    rewrite N.eqb_refl, andb_false_r in H. discriminate H.
Qed.

Lemma trim_stripFences_fenced t w :
  blank1 w ->
  trim (stripFences (lit "```json" ++ t ++ lit "```" ++ w)) = trim t.
Proof.
  intros W. rewrite stripFences_fenced by exact W.
  apply trim_drop_one_space.
Qed.

Lemma plain_jsonStr_fenced t :
  GeminiService.jsonStr (lit "```json" ++ t ++ lit "```") = trim t.
Proof.
  unfold GeminiService.jsonStr.
  rewrite plain_open, strip_prefix_app.
  destruct (drop_while is_white_space t) as [|c u] eqn:E.
  - apply blank_no_black in E.
    rewrite (@drop_while_all is_white_space t _ E).
    change (drop_while is_white_space (lit "```")) with ([] ++ lit "```").
    rewrite plain_close_trailing. cbn. symmetry. now apply trim_blank.
  - rewrite drop_while_app by (rewrite E; discriminate).
    rewrite plain_close_trailing.
    change (rev (drop_while is_white_space
                   (rev (drop_while is_white_space t)))) with (trim t).
    apply trim_idem.
Qed.

(** ** Results *)

(** X1. The closing replacement of [sanitizeJsonString] removes a fence
    marker that ends the text, alone or followed by one white-space
    character, whatever stands before it, and removes nothing else; a text
    that does not end that way is unchanged. *)
Theorem fence_close_strips_only_trailing :
  (forall p w, blank1 w ->
               replace re_fence_close [] (p ++ lit "```" ++ w) = p)
  /\ (forall s, (forall p w, blank1 w -> s <> p ++ lit "```" ++ w) ->
                replace re_fence_close [] s = s).
Proof. split; [exact fence_close_trailing|exact fence_close_absent]. Qed.

Lemma fence_close_strips_only_trailing_witness :
  replace re_fence_close [] (lit "{a} ``` x" ++ lit "```" ++ nl) = lit "{a} ``` x"
  /\ replace re_fence_close [] (lit "```x") = lit "```x".
Proof.
  destruct fence_close_strips_only_trailing as [Hend Hnot]. split.
  - apply Hend. right. exists 10%N. now split.
  - apply Hnot. intros p w W E.
    apply (f_equal (@rev char)) in E. rewrite !rev_app_distr in E.
    destruct W as [->|(c & Wc & ->)]; cbn in E.
    + discriminate E.
    + injection E as <- _. discriminate Wc.
Defined.

(** X2. The opening replacement of [sanitizeJsonString] removes the first
    occurrence of the marker, wherever it stands, with one white-space
    character after it when there is one, and nothing else; a text without
    the marker is unchanged. *)
Theorem fence_open_strips_first_marker :
  (forall pre post,
     (forall a b, pre ++ lit "```json" ++ post = a ++ lit "```json" ++ b ->
                  length pre <= length a) ->
     replace re_fence_open [] (pre ++ lit "```json" ++ post)
     = pre ++ drop_one_space post)
  /\ (forall s, (forall a b, s <> a ++ lit "```json" ++ b) ->
                replace re_fence_open [] s = s).
Proof. split; [exact fence_open_first|exact fence_open_absent]. Qed.

Lemma fence_open_strips_first_marker_witness :
  replace re_fence_open [] (lit "x" ++ lit "```json" ++ lit " y```json z")
  = lit "xy```json z"
  /\ replace re_fence_open [] (lit "``json") = lit "``json".
Proof.
  destruct fence_open_strips_first_marker as [Hfirst Hnone]. split.
  - apply Hfirst. intros a b E.
    destruct a; [discriminate E|cbn; lia].
  - apply Hnone. intros a b E.
    apply (f_equal (@length char)) in E. rewrite !length_app in E.
    cbn in E. lia.
Defined.

(** X3. For a text that starts with the opening marker and ends with the
    closing marker, alone or followed by one white-space character, fence
    stripping and trimming leave exactly the trimmed inside, whatever the
    inside is; [sanitizeJsonString] goes on with that. *)
Theorem fenced_answer_is_trimmed :
  forall t w,
    blank1 w ->
    trim (stripFences (lit "```json" ++ t ++ lit "```" ++ w)) = trim t
    /\ sanitizeJsonString (lit "```json" ++ t ++ lit "```" ++ w)
       = stripControl (fixUnicodeEscapes (jsonBounds (trim t))).
Proof.
  intros t w W. pose proof (trim_stripFences_fenced t W) as E.
  split; [exact E|]. unfold sanitizeJsonString. now rewrite E.
Qed.

Lemma fenced_answer_is_trimmed_witness :
  trim (stripFences (lit "```json" ++ (nl ++ lit "  [1] " ++ nl)
                     ++ lit "```" ++ nl)) = lit "[1]"
  /\ sanitizeJsonString (lit "```json" ++ (nl ++ lit "  [1] " ++ nl)
                         ++ lit "```" ++ nl) = lit "[1]".
Proof.
  apply (@fenced_answer_is_trimmed (nl ++ lit "  [1] " ++ nl) nl).
  right. exists 10%N. now split.
Defined.

(** X4. In the plain variant a text that starts with the opening marker
    and ends with the closing marker gives exactly its trimmed inside,
    whatever the inside is. *)
Theorem plain_fenced_answer_is_trimmed :
  forall t,
    GeminiService.jsonStr (lit "```json" ++ t ++ lit "```") = trim t.
Proof. exact plain_jsonStr_fenced. Qed.

(** X5. In the plain variant a text that does not start with the opening
    marker and does not end with the closing marker is only trimmed: a
    marker elsewhere in the text stays. *)
Theorem plain_unfenced_text_is_trimmed :
  forall s,
    strip_prefix (lit "```json") s = None ->
    (forall a, s <> a ++ lit "```") ->
    GeminiService.jsonStr s = trim s.
Proof.
  intros s Ho Hc. unfold GeminiService.jsonStr.
  rewrite plain_open, Ho. now rewrite plain_close_absent.
Qed.

Lemma plain_unfenced_text_is_trimmed_witness :
  GeminiService.jsonStr (lit " x```jsony``` z ") = lit "x```jsony``` z".
Proof.
  apply (@plain_unfenced_text_is_trimmed (lit " x```jsony``` z ")).
  - reflexivity.
  - intros a E. apply (f_equal (@rev char)) in E.
    rewrite rev_app_distr in E. discriminate E.
Defined.

(** X6. [sanitizeJsonString] only deletes characters: its output is its
    input with some characters removed and the others in their order, so
    it is never longer than the input and holds no character that the
    input does not hold. *)
Theorem sanitize_only_deletes :
  forall str,
    Subseq (sanitizeJsonString str) str
    /\ length (sanitizeJsonString str) <= length str
    /\ incl (sanitizeJsonString str) str.
Proof.
  intros str.
  assert (Subseq (sanitizeJsonString str) str) as H.
  { unfold sanitizeJsonString.
    eapply Subseq_trans.
    { rewrite stripControl_filter. apply Subseq_filter. }
    eapply Subseq_trans.
    { rewrite fixUnicodeEscapes_repair. apply Subseq_repair. }
    eapply Subseq_trans; [apply Subseq_jsonBounds|].
    eapply Subseq_trans; [apply Subseq_trim|].
    unfold stripFences.
    eapply Subseq_trans; apply Subseq_replace_empty. }
  split; [exact H|]. split; [now apply Subseq_length|].
  intros c. now apply Subseq_In.
Qed.

(** X7. The cleaning of the plain variant only deletes characters as
    well. *)
Theorem plain_jsonStr_only_deletes :
  forall text,
    Subseq (GeminiService.jsonStr text) text
    /\ length (GeminiService.jsonStr text) <= length text
    /\ incl (GeminiService.jsonStr text) text.
Proof.
  intros text.
  assert (Subseq (GeminiService.jsonStr text) text) as H.
  { unfold GeminiService.jsonStr.
    eapply Subseq_trans; [apply Subseq_trim|].
    eapply Subseq_trans; apply Subseq_replace_empty. }
  split; [exact H|]. split; [now apply Subseq_length|].
  intros c. now apply Subseq_In.
Qed.

(** X8. The bounds step always answers one contiguous piece of its input,
    and answers the same when applied again to its own result. *)
Theorem json_bounds_idempotent_segment :
  forall cleaned,
    jsonBounds (jsonBounds cleaned) = jsonBounds cleaned
    /\ exists pre post, cleaned = pre ++ jsonBounds cleaned ++ post.
Proof.
  intros s.
  destruct (in_dec N.eq_dec lbrace s) as [Hl|Hl].
  2:{ assert (jsonBounds s = s) as E by (apply jsonBounds_no_brace; now left).
      rewrite !E. split; [reflexivity|].
      exists [], []. cbn. now rewrite app_nil_r. }
  destruct (in_dec N.eq_dec rbrace s) as [Hr|Hr].
  2:{ assert (jsonBounds s = s) as E by (apply jsonBounds_no_brace; now right).
      rewrite !E. split; [reflexivity|].
      exists [], []. cbn. now rewrite app_nil_r. }
  destruct (@brace_shape s Hl Hr)
    as [(pre & mid & post & -> & N1 & N2)
       |(pre & mid & post & -> & N1 & N2 & N3 & N4)].
  - rewrite jsonBounds_ordered by assumption. split.
    + change (lbrace :: mid ++ [rbrace])
        with ([] ++ lbrace :: mid ++ rbrace :: []) at 1.
      apply jsonBounds_ordered; intros [].
    + exists pre, post. cbn [app]. now rewrite <- app_assoc.
  - rewrite jsonBounds_swapped by assumption. split.
    + apply jsonBounds_no_brace. now left.
    + exists (pre ++ [rbrace]), (lbrace :: post).
      now rewrite <- app_assoc.
Qed.

(** X9. When what is left after fence stripping and trimming holds an
    object, from its first opening brace to its last closing brace, that
    has no character of the removed ranges and no bad escape, then
    [sanitizeJsonString] returns exactly that object, dropping the text
    around it, and [analyzeSlideImage] completes as [JSON.parse] does on
    the object. *)
Theorem clean_object_is_extracted :
  forall str pre mid post,
    trim (stripFences str) = pre ++ lbrace :: mid ++ rbrace :: post ->
    ~ In lbrace pre -> ~ In rbrace post ->
    clean (lbrace :: mid ++ [rbrace]) ->
    sanitizeJsonString str = lbrace :: mid ++ [rbrace]
    /\ analyzeSlideImage (Normal (Some str)) =
       match JSON_parse (lbrace :: mid ++ [rbrace]) with
       | Normal v => ([], Normal v)
       | Throw e => catch_block e
       end.
Proof.
  intros str pre mid post E N1 N2 C.
  assert (sanitizeJsonString str = lbrace :: mid ++ [rbrace]) as S.
  { unfold sanitizeJsonString. rewrite E.
    rewrite jsonBounds_ordered by assumption.
    now apply later_steps_clean. }
  split; [exact S|].
  rewrite analyze_nonempty, S; [reflexivity|].
  intros ->. destruct pre; discriminate E.
Qed.

Lemma clean_object_is_extracted_witness :
  sanitizeJsonString (jq "Here it is: {'elements':[]} Done.")
  = jq "{'elements':[]}"
  /\ analyzeSlideImage (Normal (Some (jq "Here it is: {'elements':[]} Done.")))
     = ([], Normal (JObject [(lit "elements", JArray [])])).
Proof.
  apply (@clean_object_is_extracted
           (jq "Here it is: {'elements':[]} Done.")
           (lit "Here it is: ") (jq "'elements':[]") (lit " Done.")).
  - reflexivity.
  - cbn. intuition discriminate.
  - cbn. intuition discriminate.
  - apply clean_without_backslash. reflexivity.
Defined.

(** X10. A clean object inside a fence, with any white space around it,
    comes out of both variants exactly as it is, and both variants
    complete as [JSON.parse] does on the object. *)
Theorem fenced_clean_object_both_variants :
  forall w1 w2 mid,
    blank w1 -> blank w2 ->
    clean (lbrace :: mid ++ [rbrace]) ->
    let obj := lbrace :: mid ++ [rbrace] in
    let text := lit "```json" ++ (w1 ++ obj ++ w2) ++ lit "```" in
    sanitizeJsonString text = obj
    /\ GeminiService.jsonStr text = obj
    /\ snd (analyzeSlideImage (Normal (Some text))) = JSON_parse obj
    /\ snd (GeminiService.analyzeSlideImage (Normal (Some text)))
       = JSON_parse obj.
Proof.
  intros w1 w2 mid W1 W2 C obj text.
  destruct (object_trimmed mid) as [T1 T2].
  assert (trim (w1 ++ obj ++ w2) = obj) as T by now apply trim_padded.
  assert (sanitizeJsonString text = obj) as S.
  { unfold sanitizeJsonString.
    change text with (lit "```json" ++ (w1 ++ obj ++ w2) ++ lit "```" ++ []).
    rewrite trim_stripFences_fenced by (now left). rewrite T. unfold obj.
    change (lbrace :: mid ++ [rbrace])
      with ([] ++ lbrace :: mid ++ rbrace :: []) at 1.
    rewrite jsonBounds_ordered by (intros []).
    now apply later_steps_clean. }
  assert (GeminiService.jsonStr text = obj) as P.
  { unfold text. now rewrite plain_jsonStr_fenced. }
  repeat split; try assumption.
  - rewrite analyze_nonempty, S by discriminate.
    now destruct (JSON_parse obj).
  - rewrite plain_analyze_nonempty, P by discriminate.
    now destruct (JSON_parse obj).
Qed.

Lemma fenced_clean_object_both_variants_witness :
  sanitizeJsonString (lit "```json" ++ (nl ++ jq "{'elements':[]}" ++ nl)
                      ++ lit "```") = jq "{'elements':[]}"
  /\ GeminiService.jsonStr (lit "```json" ++ (nl ++ jq "{'elements':[]}" ++ nl)
                            ++ lit "```") = jq "{'elements':[]}"
  /\ snd (analyzeSlideImage
            (Normal (Some (lit "```json" ++ (nl ++ jq "{'elements':[]}" ++ nl)
                           ++ lit "```"))))
     = JSON_parse (jq "{'elements':[]}")
  /\ snd (GeminiService.analyzeSlideImage
            (Normal (Some (lit "```json" ++ (nl ++ jq "{'elements':[]}" ++ nl)
                           ++ lit "```"))))
     = JSON_parse (jq "{'elements':[]}").
Proof.
  apply (@fenced_clean_object_both_variants nl nl (jq "'elements':[]")).
  - repeat constructor.
  - repeat constructor.
  - apply clean_without_backslash. reflexivity.
Defined.

(** X11. A clean object on its own, in which the opening marker does not
    occur, passes through both variants unchanged. *)
Theorem bare_clean_object_is_unchanged :
  forall mid,
    clean (lbrace :: mid ++ [rbrace]) ->
    (forall a b, lbrace :: mid ++ [rbrace] <> a ++ lit "```json" ++ b) ->
    sanitizeJsonString (lbrace :: mid ++ [rbrace]) = lbrace :: mid ++ [rbrace]
    /\ GeminiService.jsonStr (lbrace :: mid ++ [rbrace])
       = lbrace :: mid ++ [rbrace].
Proof.
  intros mid C M.
  destruct (object_trimmed mid) as [T1 T2].
  assert (trim (lbrace :: mid ++ [rbrace]) = lbrace :: mid ++ [rbrace]) as T.
  { pose proof (@trim_padded [] [] (lbrace :: mid ++ [rbrace])) as H.
    cbn [app] in H. rewrite app_nil_r in H.
    apply H; [constructor|constructor|exact T1|exact T2]. }
  split.
  - unfold sanitizeJsonString, stripFences.
    rewrite fence_open_absent by exact M.
    rewrite fence_close_absent
      by (intros p w W; now apply object_not_fence_ended).
    rewrite T.
    change (lbrace :: mid ++ [rbrace])
      with ([] ++ lbrace :: mid ++ rbrace :: []) at 1.
    rewrite jsonBounds_ordered by (intros []).
    now apply later_steps_clean.
  - unfold GeminiService.jsonStr. rewrite plain_open.
    change (strip_prefix (lit "```json") (lbrace :: mid ++ [rbrace]))
      with (@None jsstring).
    rewrite plain_close_absent; [exact T|].
    intros a E.
    apply (@object_not_fence_ended mid a []); [now left|].
    now rewrite app_nil_r.
Qed.

Lemma bare_clean_object_is_unchanged_witness :
  sanitizeJsonString (lbrace :: jq "'`'" ++ [rbrace])
  = lbrace :: jq "'`'" ++ [rbrace]
  /\ GeminiService.jsonStr (lbrace :: jq "'`'" ++ [rbrace])
     = lbrace :: jq "'`'" ++ [rbrace].
Proof.
  apply bare_clean_object_is_unchanged.
  - apply clean_without_backslash. reflexivity.
  - intros a b E. apply (f_equal (@length char)) in E.
    rewrite !length_app in E. cbn in E. lia.
Defined.

(** X12. A response that is not empty but holds white space only is not
    taken for an empty one: both variants clean it down to the empty
    string, [JSON.parse] refuses that, and the [SyntaxError] is thrown. *)
Theorem blank_response_throws :
  forall w,
    w <> [] -> blank w ->
    sanitizeJsonString w = []
    /\ GeminiService.jsonStr w = []
    /\ analyzeSlideImage (Normal (Some w))
       = ([ConsoleError "Gemini Analysis Error:" SyntaxError;
           ConsoleWarn "Retrying with more aggressive cleaning..."],
          Throw SyntaxError)
    /\ GeminiService.analyzeSlideImage (Normal (Some w))
       = ([ConsoleError "Gemini Analysis Error:" SyntaxError],
          Throw SyntaxError).
Proof.
  intros w Hne W.
  assert (sanitizeJsonString w = []) as S.
  { unfold sanitizeJsonString.
    rewrite stripFences_no_backtick by now apply blank_no_backtick.
    rewrite trim_blank by exact W. reflexivity. }
  assert (GeminiService.jsonStr w = []) as P.
  { unfold GeminiService.jsonStr. rewrite plain_open.
    assert (strip_prefix (lit "```json") w = None) as ->.
    { destruct w as [|c w']; [congruence|].
      inversion W as [|? ? Wc _]. cbn.
      destruct (N.eqb_spec c 96) as [->|]; [discriminate Wc|reflexivity]. }
    rewrite plain_close_absent.
    - now apply trim_blank.
    - intros a ->. apply (blank_no_backtick W).
      change (a ++ lit "```") with (a ++ lit "```" ++ []).
      apply backtick_in_fence. }
  repeat split; try assumption.
  - rewrite analyze_nonempty, S by exact Hne. reflexivity.
  - rewrite plain_analyze_nonempty, P by exact Hne. reflexivity.
Qed.

Lemma blank_response_throws_witness :
  sanitizeJsonString (lit "  " ++ nl) = []
  /\ GeminiService.jsonStr (lit "  " ++ nl) = []
  /\ analyzeSlideImage (Normal (Some (lit "  " ++ nl)))
     = ([ConsoleError "Gemini Analysis Error:" SyntaxError;
         ConsoleWarn "Retrying with more aggressive cleaning..."],
        Throw SyntaxError)
  /\ GeminiService.analyzeSlideImage (Normal (Some (lit "  " ++ nl)))
     = ([ConsoleError "Gemini Analysis Error:" SyntaxError],
        Throw SyntaxError).
Proof.
  apply blank_response_throws.
  - discriminate.
  - repeat constructor.
Defined.

(** X13. No error is swallowed and none is made up: either variant throws
    an error exactly when the remote call threw it or [JSON.parse] threw
    it on the cleaned text, and it then has logged that error first; the
    retry notice of the sanitising variant follows for a [SyntaxError]
    only, so a transport error is logged once and thrown again as it
    came. *)
Theorem errors_are_logged_and_rethrown :
  forall response e,
    (snd (analyzeSlideImage response) = Throw e <->
     response = Throw e
     \/ exists text, response = Normal text /\ falsy text = false
                     /\ JSON_parse (sanitizeJsonString (text_of text)) = Throw e)
    /\ (snd (analyzeSlideImage response) = Throw e ->
        fst (analyzeSlideImage response) =
        ConsoleError "Gemini Analysis Error:" e ::
        match e with
        | SyntaxError =>
            [ConsoleWarn "Retrying with more aggressive cleaning..."]
        | TransportError => []
        end)
    /\ (snd (GeminiService.analyzeSlideImage response) = Throw e <->
        response = Throw e
        \/ exists text, response = Normal text /\ falsy text = false
                        /\ JSON_parse (GeminiService.jsonStr (text_of text))
                           = Throw e)
    /\ (snd (GeminiService.analyzeSlideImage response) = Throw e ->
        fst (GeminiService.analyzeSlideImage response) =
        [ConsoleError "Gemini Analysis Error:" e]).
Proof.
  intros response e.
  unfold analyzeSlideImage, GeminiService.analyzeSlideImage,
    analyzeSlideImage_with, GeminiService.analyzeSlideImage_with, try_block.
  destruct response as [text|e0].
  - destruct (falsy text) eqn:F.
    + cbn. repeat split; try discriminate.
      * intros [H|(t & H & F' & _)]; [discriminate H|].
        injection H as <-. congruence.
      * intros [H|(t & H & F' & _)]; [discriminate H|].
        injection H as <-. congruence.
    + repeat split.
      * destruct (JSON_parse (sanitizeJsonString (text_of text))) eqn:J;
          cbn; [discriminate|].
        intros H. injection H as ->. right. now exists text.
      * intros [H|(t & H & _ & J)]; [discriminate H|].
        injection H as <-. rewrite J. reflexivity.
      * destruct (JSON_parse (sanitizeJsonString (text_of text))) eqn:J;
          cbn; [discriminate|].
        intros H. injection H as ->. now destruct e.
      * destruct (JSON_parse (GeminiService.jsonStr (text_of text))) eqn:J;
          cbn; [discriminate|].
        intros H. injection H as ->. right. now exists text.
      * intros [H|(t & H & _ & J)]; [discriminate H|].
        injection H as <-. rewrite J. reflexivity.
      * destruct (JSON_parse (GeminiService.jsonStr (text_of text))) eqn:J;
          cbn; [discriminate|].
        intros H. now injection H as ->.
  - cbn. repeat split.
    + intros H. injection H as ->. now left.
    + intros [H|(t & H & _)]; [now injection H as ->|discriminate H].
    + intros H. injection H as ->. now destruct e.
    + intros H. injection H as ->. now left.
    + intros [H|(t & H & _)]; [now injection H as ->|discriminate H].
    + intros H. now injection H as ->.
Qed.

(** X14. The data sent for the image is the piece of the argument between
    its first comma and the next one: the whole rest when there is no
    second comma, and [undefined] when the argument holds no comma at all.
    Joining the pieces of [split] with commas gives the argument back. *)
Theorem image_data_is_second_piece :
  (forall s, ~ In comma s -> inlineData_data s = None)
  /\ (forall header payload,
        ~ In comma header -> ~ In comma payload ->
        inlineData_data (header ++ comma :: payload) = Some payload)
  /\ (forall header payload rest,
        ~ In comma header -> ~ In comma payload ->
        inlineData_data (header ++ comma :: payload ++ comma :: rest)
        = Some payload)
  /\ (forall s, join comma (split comma s) = s).
Proof.
  unfold inlineData_data. repeat split.
  - intros s N. now rewrite split_no_sep.
  - intros header payload N1 N2.
    now rewrite split_at_first, split_no_sep.
  - intros header payload rest N1 N2.
    now rewrite split_at_first, split_at_first.
  - intros s. apply join_split.
Qed.

Lemma image_data_is_second_piece_witness :
  inlineData_data (lit "QUJD") = None
  /\ inlineData_data (lit "data:image/jpeg;base64" ++ comma :: lit "QUJD")
     = Some (lit "QUJD")
  /\ inlineData_data (lit "a" ++ comma :: lit "b" ++ comma :: lit "c,d")
     = Some (lit "b").
Proof.
  destruct image_data_is_second_piece as (H0 & H1 & H2 & _).
  split; [|split].
  - apply H0. cbn. intuition discriminate.
  - apply H1; cbn; intuition discriminate.
  - apply H2; cbn; intuition discriminate.
Defined.
